(** * Kilauea 2018 summit earthquakes: the notebook's data pipeline

    A shallow embedding of the transforms of [kilauea_altair_final.ipynb]:
    the grouping of the earthquakes into explosion sets, the
    frequency-magnitude tables and the b-value statistics of [SetStats].

    Conventions of the embedding.
    - A pandas timestamp is its integer number of nanoseconds, a [Z].
    - A magnitude, a depth or a coordinate read from the catalogue is a
      decimal number, a [Q]; every row carries every column.
    - In the modules [FreqMag], [Stats] and [Display] float64 arithmetic is
      exact arithmetic (on [Q] where the code only adds, subtracts,
      multiplies and divides, on [R] where it takes [log10] or [sqrt])
      extended with the special values [inf] and [nan] that numpy returns
      instead of raising; rounding error is not part of that model, and what
      is proved there holds of the formulas, up to rounding of the code.
    - The module [Float64] evaluates [np.mean], [getB] and [getB_err] on
      binary64 floats; it shows where rounding makes the code differ from the
      formulas.
    - A Python exception is a [Raise] result. *)

From Stdlib Require Import List ZArith QArith Qround Qreals Reals Lra Lia Bool.
From Stdlib Require String.
From Stdlib Require Lqa.
From Stdlib Require Floats.

(** Decimal literals of floats stand for the nearest binary64 value, as in
    Python. *)
Set Warnings "-inexact-float".
From Stdlib Require Import Sorting.Sorted.
Import ListNotations.

(** ** Exceptions *)

Inductive exn : Type :=
| IndexError
| ValueError.

Inductive result (A : Type) : Type :=
| Ok (a : A)
| Raise (e : exn).

Arguments Ok {A} a.
Arguments Raise {A} e.

Definition bind {A B : Type} (m : result A) (k : A -> result B) : result B :=
  match m with
  | Ok a => k a
  | Raise e => Raise e
  end.

Notation "x <- m ;; k" := (bind m (fun x => k))
  (at level 61, m at next level, right associativity).

(** ** numpy float64 values *)

Inductive np_float (A : Type) : Type :=
| Fin (x : A)
| PInf
| NInf
| NaN.

Arguments Fin {A} x.
Arguments PInf {A}.
Arguments NInf {A}.
Arguments NaN {A}.

(** ** The catalogue *)

(** A row of the earthquake (or explosion) catalogue after [pd.to_datetime]:
    the columns of [colkeep], with [DTtime] in place of [time]. *)
Record quake : Type := mkQuake {
  DTtime : Z;
  depth : Q;
  mag : Q;
  magType : String.string;
  latitude : Q;
  longitude : Q
}.

(** A row of [events] once the column [ex_set] exists. *)
Record event : Type := mkEvent {
  row : quake;
  ex_set : Z
}.

Definition set_ex_set (i : Z) (e : event) : event :=
  mkEvent (row e) i.

(** [events.loc[mask, 'ex_set'] = i] *)
Definition loc_assign (mask : event -> bool) (i : Z) (events : list event)
  : list event :=
  map (fun e => if mask e then set_ex_set i e else e) events.

(** ** Python slices of the explosion times *)

(** [l[a:]] *)
Definition slice_from {A : Type} (a : nat) (l : list A) : list A :=
  skipn a l.

(** [l[a:-1]] *)
Definition slice_from_to_last {A : Type} (a : nat) (l : list A) : list A :=
  firstn (length l - 1 - a) (skipn a l).

(** [l[-1]] *)
Definition last_item {A : Type} (l : list A) : result A :=
  match rev l with
  | [] => Raise IndexError
  | x :: _ => Ok x
  end.

(** ** Group the earthquakes (cells 3 and 4) *)

Module Partition.

Definition start_times (explode : list Z) : list Z :=
  slice_from_to_last 12 explode.

Definition end_times (explode : list Z) : list Z :=
  slice_from 13 explode.

(** One turn of the [for start, end in zip(...)] loop: the state is the
    table and the counter [i]. *)
Definition loop_body (st : list event * Z) (p : Z * Z) : list event * Z :=
  let '(events, i) := st in
  let '(start, end_) := p in
  let mask := fun e =>
    (DTtime (row e) >=? start)%Z && (DTtime (row e) <? end_)%Z in
  (loc_assign mask i events, (i + 1)%Z).

Definition assign_sets (starts ends : list Z) (quakes : list quake)
  : result (list event) :=
  let events := map (fun q => mkEvent q 0) quakes in
  let '(events, i) := fold_left loop_body (combine starts ends) (events, 1%Z) in
  last_end <- last_item ends ;;
  Ok (loc_assign (fun e => (DTtime (row e) >? last_end)%Z) i events).

Definition group_earthquakes (explode : list Z) (quakes : list quake)
  : result (list event) :=
  assign_sets (start_times explode) (end_times explode) quakes.

(** The pairs [(b0, b1), (b1, b2), ...] of neighbouring boundaries. *)
Fixpoint consecutive (b : list Z) : list (Z * Z) :=
  match b with
  | [] => []
  | x :: b' =>
      match b' with
      | [] => []
      | y :: _ => (x, y) :: consecutive b'
      end
  end.

(** What the loop leaves in [ex_set] on a row of time [t] that holds [cur]
    when the counter is [i]. *)
Fixpoint loop_set (t : Z) (pairs : list (Z * Z)) (i cur : Z) : Z :=
  match pairs with
  | [] => cur
  | (start, end_) :: ps =>
      loop_set t ps (i + 1)%Z
               (if (t >=? start)%Z && (t <? end_)%Z then i else cur)
  end.

(** The set number of a row of time [t] at the end of cell 4. *)
Definition final_set (t : Z) (pairs : list (Z * Z)) (last_end : Z) : Z :=
  if (t >? last_end)%Z then (1 + Z.of_nat (length pairs))%Z
  else loop_set t pairs 1 0.

(** The number of boundaries at or before the time [t]. *)
Definition boundaries_upto (t : Z) (b : list Z) : Z :=
  Z.of_nat (length (filter (fun x => (x <=? t)%Z) b)).

End Partition.

(** ** Frequency-magnitude data (cell 5) *)

Section SortedUnique.

Variable A : Type.
Variable cmp : A -> A -> comparison.

Fixpoint insert_unique (x : A) (l : list A) : list A :=
  match l with
  | [] => [x]
  | y :: l' =>
      match cmp x y with
      | Lt => x :: l
      | Eq => l
      | Gt => y :: insert_unique x l'
      end
  end.

(** The sorted distinct keys of a [groupby]. *)
Definition sorted_unique (l : list A) : list A :=
  fold_right insert_unique [] l.

End SortedUnique.

Arguments insert_unique {A} cmp x l.
Arguments sorted_unique {A} cmp l.

Fixpoint zip_with {A B C : Type} (f : A -> B -> C) (l1 : list A) (l2 : list B)
  : list C :=
  match l1, l2 with
  | a :: l1', b :: l2' => f a b :: zip_with f l1' l2'
  | _, _ => []
  end.

(** A table whose index is [mag] and whose columns are the set numbers, kept
    row by row: each row is its index label and one value per column. *)
Record DataFrame (V : Type) : Type := mkFrame {
  columns : list Z;
  rows : list (Q * list V)
}.

Arguments mkFrame {V} columns rows.
Arguments columns {V} d.
Arguments rows {V} d.

Module FreqMag.

(** [np.rint]: to the nearest integer, halves to the even one. *)
Definition rint (x : Q) : Z :=
  let f := Qfloor x in
  match ((x - inject_Z f) ?= (1 # 2))%Q with
  | Lt => f
  | Gt => (f + 1)%Z
  | Eq => if Z.even f then f else (f + 1)%Z
  end.

(** [x.round(decimals=1)] *)
Definition round1 (x : Q) : Q :=
  (inject_Z (rint (x * 10)) / 10)%Q.

(** [events.drop([...], axis=1)] followed by the rounding of [mag]. *)
Record mag_row : Type := mkMagRow {
  mr_depth : Q;
  mr_mag : Q;
  mr_ex_set : Z
}.

Definition events_mags (events : list event) : list mag_row :=
  map (fun e => mkMagRow (depth (row e)) (round1 (mag (row e))) (ex_set e))
      events.

(** [aggfunc='count'] on [depth] for the group [(m, s)]: every row has a
    depth, so this is the number of rows of the group. *)
Definition count_depth (t : list mag_row) (m : Q) (s : Z) : Z :=
  Z.of_nat
    (length (filter (fun r => Qeq_bool (mr_mag r) m && (mr_ex_set r =? s)%Z) t)).

(** [pivot_table(index='mag', columns='ex_set', values='depth',
    aggfunc='count', fill_value=0)] *)
Definition pivot_table (t : list mag_row) : DataFrame Z :=
  let index := sorted_unique Qcompare (map mr_mag t) in
  let cols := sorted_unique Z.compare (map mr_ex_set t) in
  mkFrame cols (map (fun m => (m, map (count_depth t m) cols)) index).

(** [df.max(axis=0)]: the maximum of each column (a frame of the pivot has
    no column when it has no row). *)
Definition max_axis0 (df : DataFrame Z) : list Z :=
  match rows df with
  | [] => []
  | r :: rs => fold_left (fun acc r' => zip_with Z.max acc (snd r')) rs (snd r)
  end.

(** Division of two int64 values by pandas: a float64, [nan] or [inf] on a
    zero divisor. *)
Definition true_div (a b : Z) : np_float Q :=
  if (b =? 0)%Z then
    if (a =? 0)%Z then NaN else if (0 <? a)%Z then PInf else NInf
  else Fin (inject_Z a / inject_Z b)%Q.

(** [df.div(series, axis=1)] *)
Definition div_axis1 (df : DataFrame Z) (series : list Z)
  : DataFrame (np_float Q) :=
  mkFrame (columns df)
          (map (fun r => (fst r, zip_with true_div (snd r) series)) (rows df)).

(** [df[::-1]] *)
Definition reversed (df : DataFrame Z) : DataFrame Z :=
  mkFrame (columns df) (rev (rows df)).

Fixpoint cumsum_rows (acc : list Z) (rs : list (Q * list Z))
  : list (Q * list Z) :=
  match rs with
  | [] => []
  | r :: rs' =>
      let acc' := zip_with Z.add acc (snd r) in
      (fst r, acc') :: cumsum_rows acc' rs'
  end.

(** [df.cumsum()]: running sums down every column. *)
Definition cumsum (df : DataFrame Z) : DataFrame Z :=
  mkFrame (columns df)
          (cumsum_rows (map (fun _ => 0%Z) (columns df)) (rows df)).

Fixpoint insert_row {V : Type} (r : Q * list V) (l : list (Q * list V))
  : list (Q * list V) :=
  match l with
  | [] => [r]
  | r' :: l' =>
      if Qle_bool (fst r) (fst r') then r :: l else r' :: insert_row r l'
  end.

(** [df.sort_values('mag')]: the rows in ascending order of the index. *)
Definition sort_values_mag {V : Type} (df : DataFrame V) : DataFrame V :=
  mkFrame (columns df) (fold_right insert_row [] (rows df)).

(** [df.unstack().to_frame(name).reset_index()]: one row per (column, index
    label), column after column. *)
Definition unstack {V : Type} (d : V) (df : DataFrame V) : list (Z * Q * V) :=
  flat_map
    (fun j => map (fun r => (nth j (columns df) 0%Z, fst r, nth j (snd r) d))
                  (rows df))
    (seq 0 (length (columns df))).

Definition quake_sum (events : list event) : DataFrame Z :=
  pivot_table (events_mags events).

Definition quake_sum_div (events : list event) : DataFrame (np_float Q) :=
  let qs := quake_sum events in
  div_axis1 qs (max_axis0 qs).

Definition quake_cumsum (events : list event) : DataFrame Z :=
  sort_values_mag (cumsum (reversed (quake_sum events))).

Definition quake_cumsum_norm (events : list event) : DataFrame (np_float Q) :=
  let qc := quake_cumsum events in
  div_axis1 qc (max_axis0 qc).

(** A row of [events_sum]. *)
Record fm_row : Type := mkFmRow {
  fm_ex_set : Z;
  fm_mag : Q;
  counts : np_float Q;
  cs_counts : np_float Q
}.

(** [events_sum['cs_counts'] = events_cumsum['cs_counts'].values]: the
    assignment of an array raises when the lengths differ. *)
Definition events_sum (events : list event) : result (list fm_row) :=
  let es := unstack NaN (quake_sum_div events) in
  let ec := unstack NaN (quake_cumsum_norm events) in
  if (length es =? length ec)%nat then
    Ok (zip_with (fun a b => mkFmRow (fst (fst a)) (snd (fst a)) (snd a) (snd b))
                 es ec)
  else Raise ValueError.

(** *** The quantities that the tables are meant to hold *)

Definition sum (c : list Z) : Z := fold_right Z.add 0%Z c.

(** The magnitude bins of the catalogue, in ascending order. *)
Definition bins (events : list event) : list Q :=
  sorted_unique Qcompare (map mr_mag (events_mags events)).

(** The number of events of set [s] in the bin [m]. *)
Definition bin_count (events : list event) (m : Q) (s : Z) : Z :=
  count_depth (events_mags events) m s.

(** The number of events of set [s]. *)
Definition set_count (events : list event) (s : Z) : Z :=
  Z.of_nat (length (filter (fun e => (ex_set e =? s)%Z) events)).

(** The number of events of set [s] in the bin [m] and in all the bins of a
    larger magnitude. *)
Definition reverse_cumulative (events : list event) (m : Q) (s : Z) : Z :=
  sum (map (fun m' => bin_count events m' s)
           (filter (fun m' => Qle_bool m m') (bins events))).

(** The row of [events_sum] for column [j] and bin [i], in terms of these
    quantities. *)
Definition cell_row (events : list event) (j i : nat) : fm_row :=
  let s := nth j (columns (quake_sum events)) 0%Z in
  let m := nth i (bins events) 0 in
  mkFmRow s m
          (true_div (bin_count events m s)
                    (nth j (max_axis0 (quake_sum events)) 0%Z))
          (true_div (reverse_cumulative events m s) (set_count events s)).

(** Column [j] of a list of rows. *)
Definition col (j : nat) (rs : list (Q * list Z)) : list Z :=
  map (fun r => nth j (snd r) 0%Z) rs.

(** Running sums from [a]. *)
Fixpoint running (a : Z) (c : list Z) : list Z :=
  match c with
  | [] => []
  | x :: c' => (a + x)%Z :: running (a + x)%Z c'
  end.

(** The sum of every suffix. *)
Fixpoint suffix_sums (c : list Z) : list Z :=
  match c with
  | [] => []
  | x :: c' => (x + sum c')%Z :: suffix_sums c'
  end.

End FreqMag.

(** ** The statistics of a set of earthquakes (cells 6 to 8) *)

Module Stats.

(** *** float64 operations of numpy on exact reals *)

Definition fsub (x y : np_float R) : np_float R :=
  match x, y with
  | NaN, _ => NaN
  | _, NaN => NaN
  | Fin a, Fin b => Fin (a - b)%R
  | Fin _, PInf => NInf
  | Fin _, NInf => PInf
  | PInf, PInf => NaN
  | NInf, NInf => NaN
  | PInf, _ => PInf
  | NInf, _ => NInf
  end.

Definition fmul (x y : np_float R) : np_float R :=
  let signed (pos : bool) := if pos then PInf else NInf in
  match x, y with
  | NaN, _ => NaN
  | _, NaN => NaN
  | Fin a, Fin b => Fin (a * b)%R
  | Fin a, PInf | PInf, Fin a =>
      if Req_dec_T a 0 then NaN else signed (if Rlt_dec 0 a then true else false)
  | Fin a, NInf | NInf, Fin a =>
      if Req_dec_T a 0 then NaN else signed (if Rlt_dec 0 a then false else true)
  | PInf, PInf | NInf, NInf => PInf
  | PInf, NInf | NInf, PInf => NInf
  end.

(** numpy's division does not raise: a zero divisor gives [inf] or [nan]. *)
Definition fdiv (x y : np_float R) : np_float R :=
  let signed (pos : bool) := if pos then PInf else NInf in
  match x, y with
  | NaN, _ => NaN
  | _, NaN => NaN
  | Fin a, Fin b =>
      if Req_dec_T b 0 then
        if Req_dec_T a 0 then NaN
        else signed (if Rlt_dec 0 a then true else false)
      else Fin (a / b)%R
  | Fin _, _ => Fin 0%R
  | PInf, Fin b => signed (if Rle_dec 0 b then true else false)
  | NInf, Fin b => signed (if Rle_dec 0 b then false else true)
  | _, _ => NaN
  end.

Definition to_real (x : np_float Q) : np_float R :=
  match x with
  | Fin q => Fin (Q2R q)
  | PInf => PInf
  | NInf => NInf
  | NaN => NaN
  end.

(** [math.log10] on a positive argument, [math.e] and [math.sqrt]. *)
Definition log10 (x : R) : R := (ln x / ln 10)%R.

Definition math_e : R := exp 1.

Definition Qsum (l : list Q) : Q := fold_right Qplus 0%Q l.

(** [np.mean]: the sum over the length, [nan] for an empty array. *)
Definition np_mean (l : list Q) : np_float Q :=
  match l with
  | [] => NaN
  | _ :: _ => Fin (Qsum l / inject_Z (Z.of_nat (length l)))%Q
  end.

(** *** class SetStats *)

Record SetStats : Type := mkSetStats {
  mags : list Q;
  mc : Q;
  Ntot : nat;
  magmu : np_float Q
}.

(** [SetStats.__init__] *)
Definition init (mags : list Q) (magC : Q) : SetStats :=
  mkSetStats mags magC (length mags) (np_mean mags).

(** The divisor of [getB]:
    [self.magmu - (self.mc - 0.5*0.1)], read over exact numbers: the
    subtractions and the product are those of the rationals and the reals,
    without the rounding of float64. What this module proves of [getB] is
    therefore a statement on the formula; [Float64.getB_divisor] below
    evaluates the same expression on floats. *)
Definition getB_divisor (self : SetStats) : np_float R :=
  fsub (to_real (magmu self))
       (Fin (Q2R (mc self - (5 # 10) * (1 # 10))%Q)).

Definition getB (self : SetStats) : np_float R :=
  fdiv (Fin (log10 math_e)) (getB_divisor self).

Definition getB_err (self : SetStats) : np_float R :=
  fdiv (getB self) (Fin (sqrt (INR (Ntot self)))).

(** [math.log10(0)] raises [ValueError]. *)
Definition getA (self : SetStats) : result (np_float R) :=
  match Ntot self with
  | O => Raise ValueError
  | S _ =>
      Ok (fsub (Fin (log10 (INR (Ntot self))))
               (fmul (getB self) (Fin (Q2R (mc self)))))
  end.

(** *** The b-values for a range of completeness magnitudes *)

(** A row of [events_stats]: the columns [mag] and [ex_set]. *)
Definition stats_row : Type := (Q * Z)%type.

Definition events_stats (events : list event) : list stats_row :=
  filter (fun r => negb (snd r =? 0)%Z)
         (map (fun e => (mag (row e), ex_set e)) events).

Definition mag_min : list Q :=
  [18 # 10; 19 # 10; 20 # 10; 21 # 10; 22 # 10; 23 # 10; 24 # 10]%Q.

(** [Series.unique()]: the distinct values in order of first appearance. *)
Fixpoint unique (l : list Z) : list Z :=
  match l with
  | [] => []
  | x :: l' => x :: filter (fun y => negb (y =? x)%Z) (unique l')
  end.

(** [events_stats.loc[(events_stats.mag >= magc) &
    (events_stats.ex_set == setnum)].mag.values] *)
Definition events_list (es : list stats_row) (magc : Q) (setnum : Z) : list Q :=
  map fst (filter (fun r => Qle_bool magc (fst r) && (snd r =? setnum)%Z) es).

(** The object built by one turn of the inner loop. *)
Definition statsobj (es : list stats_row) (setnum : Z) (magc : Q) : SetStats :=
  init (events_list es magc setnum) magc.

(** A frame indexed by set number with one column per completeness
    magnitude. *)
Definition stats_frame : Type := list (Z * list (Q * np_float R)).

(** The two nested loops: every cell of [bvals_df] and of [berrs_df] is
    assigned once. *)
Definition fill (f : SetStats -> np_float R) (es : list stats_row)
  : stats_frame :=
  map (fun setnum =>
         (setnum, map (fun magc => (magc, f (statsobj es setnum magc))) mag_min))
      (unique (map snd es)).

Definition bvals_df (es : list stats_row) : stats_frame := fill getB es.

Definition berrs_df (es : list stats_row) : stats_frame := fill getB_err es.

(** The frame that pandas builds when a column of fifty values is assigned
    to a frame without rows: the index becomes [0..49] and every other
    column is [nan]. *)
Definition empty_frame_with_ex_set
  : list (Z * (Z * list (Q * np_float R))) :=
  map (fun k => (Z.of_nat (S k),
                 (Z.of_nat k, map (fun magc => (magc, NaN)) mag_min)))
      (seq 0 50).

(** [df['ex_set'] = range(1,51)]: a new column of fifty labels. A frame
    without rows takes the fifty labels as its rows; a frame with rows must
    have fifty of them, or the assignment raises. *)
Definition with_ex_set (df : stats_frame)
  : result (list (Z * (Z * list (Q * np_float R)))) :=
  match df with
  | [] => Ok empty_frame_with_ex_set
  | _ :: _ =>
      if (length df =? 50)%nat then
        Ok (combine (map Z.of_nat (seq 1 50)) df)
      else Raise ValueError
  end.

(** Cell 8 as a whole. *)
Definition b_values (events : list event)
  : result (list (Z * (Z * list (Q * np_float R)))
            * list (Z * (Z * list (Q * np_float R)))) :=
  let es := events_stats events in
  bv <- with_ex_set (bvals_df es) ;;
  be <- with_ex_set (berrs_df es) ;;
  Ok (bv, be).

End Stats.

(** ** The statistics in float64 *)

(** The module [Stats] reads the formulas of [SetStats] over exact numbers.
    This module evaluates the same code on binary64 floats, as numpy and the
    [math] module do, so that the effect of rounding can be computed on a
    given input. *)
Module Float64.

Import Floats.PrimFloat.

Definition f64 : Type := PrimFloat.float.

(** [float(n)] of a length. *)
Definition of_nat (n : nat) : f64 :=
  PrimFloat.of_uint63 (Uint63.of_Z (Z.of_nat n)).

(** [for (i = 0; i < n; i++) res += a[i]] *)
Fixpoint sum_loop (res : f64) (a : list f64) : f64 :=
  match a with
  | [] => res
  | x :: a' => sum_loop (PrimFloat.add res x) a'
  end.

(** The unrolled loop of numpy's pairwise sum: eight running sums [r], each
    fed by every eighth value, for [blocks] groups of eight values. *)
Fixpoint unrolled (blocks : nat) (r a : list f64) : list f64 * list f64 :=
  match blocks with
  | O => (r, a)
  | S blocks' =>
      unrolled blocks' (zip_with PrimFloat.add r (firstn 8 a)) (skipn 8 a)
  end.

(** A block of 8 to 128 values: the eight running sums are added as a
    tree, then the values left over (fewer than eight) one by one. *)
Definition block_sum (a : list f64) : f64 :=
  let '(r, rest) := unrolled (length a / 8 - 1) (firstn 8 a) (skipn 8 a) in
  let r_ := fun j => nth j r PrimFloat.zero in
  let add := PrimFloat.add in
  sum_loop (add (add (add (r_ 0%nat) (r_ 1%nat)) (add (r_ 2%nat) (r_ 3%nat)))
                (add (add (r_ 4%nat) (r_ 5%nat)) (add (r_ 6%nat) (r_ 7%nat))))
           rest.

(** numpy's [pairwise_sum] of a contiguous array: a plain loop below eight
    values, a block up to 128, two halves above (the first a multiple of
    eight). The fuel bounds the depth of the halving. *)
Fixpoint pairwise_sum (fuel : nat) (a : list f64) : f64 :=
  let n := length a in
  if (n <? 8)%nat then sum_loop PrimFloat.zero a
  else if (n <=? 128)%nat then block_sum a
  else
    match fuel with
    | O => block_sum a
    | S fuel' =>
        let n2 := (n / 2 - (n / 2) mod 8)%nat in
        PrimFloat.add (pairwise_sum fuel' (firstn n2 a))
                      (pairwise_sum fuel' (skipn n2 a))
    end.

(** [np.mean]: the sum over the length, [nan] for an empty array. *)
Definition np_mean (a : list f64) : f64 :=
  PrimFloat.div (pairwise_sum (length a) a) (of_nat (length a)).

(** The float that [math.log10(math.e)] returns. *)
Definition log10_e : f64 := 0.4342944819032518%float.

Record SetStats : Type := mkSetStats {
  mags : list f64;
  mc : f64;
  Ntot : nat;
  magmu : f64
}.

Definition init (mags : list f64) (magC : f64) : SetStats :=
  mkSetStats mags magC (length mags) (np_mean mags).

(** [self.magmu - (self.mc - 0.5*0.1)] *)
Definition getB_divisor (self : SetStats) : f64 :=
  PrimFloat.sub (magmu self)
                (PrimFloat.sub (mc self)
                               (PrimFloat.mul 0.5%float 0.1%float)).

Definition getB (self : SetStats) : f64 :=
  PrimFloat.div log10_e (getB_divisor self).

Definition getB_err (self : SetStats) : f64 :=
  PrimFloat.div (getB self) (PrimFloat.sqrt (of_nat (Ntot self))).

End Float64.

(** ** What goes to the charts (cells 9 and 10) *)

Module Display.

(** [events = events[events.ex_set != 0]] *)
Definition plotted_events (events : list event) : list event :=
  filter (fun e => negb (ex_set e =? 0)%Z) events.

(** *** The long form of the b-values (cell 9) *)

(** [np.rint] on a real number: the nearest integer, a half to the even
    one. *)
Definition rint_R (x : R) : Z :=
  let f := (up x - 1)%Z in
  if Rlt_dec (x - IZR f) (1 / 2) then f
  else if Rlt_dec (1 / 2) (x - IZR f) then (f + 1)%Z
  else if Z.even f then f else (f + 1)%Z.

(** [x.round(2)] *)
Definition round2 (x : np_float R) : np_float R :=
  match x with
  | Fin r => Fin (IZR (rint_R (r * 100)) / 100)%R
  | _ => x
  end.

(** A frame of cell 8 with its column [ex_set]. *)
Definition labelled_frame : Type := list (Z * (Z * list (Q * np_float R))).

(** [pd.melt(df, id_vars=['ex_set'], var_name='mag_c', value_name=...)]:
    for every completeness magnitude in turn, the label and the value of
    every row. *)
Definition melt (df : labelled_frame) : list (Z * Q * np_float R) :=
  flat_map
    (fun j => map (fun r => (fst r, nth j Stats.mag_min 0,
                             snd (nth j (snd (snd r)) (0, NaN))))
                  df)
    (seq 0 (length Stats.mag_min)).

(** A row of [bvals_long]. *)
Record long_row : Type := mkLongRow {
  lr_ex_set : Z;
  lr_mag_c : Q;
  lr_bvals : np_float R;
  lr_berrs : np_float R
}.

(** Cells 8 and 9: the two frames are melted, the errors are put beside the
    b-values row by row, and both are rounded to 0.01. *)
Definition bvals_long (events : list event) : result (list long_row) :=
  tables <- Stats.b_values events ;;
  Ok (zip_with
        (fun a b => mkLongRow (fst (fst a)) (snd (fst a))
                              (round2 (snd a)) (round2 (snd b)))
        (melt (fst tables)) (melt (snd tables))).

(** The rows of [bvals_long]: for every completeness magnitude in turn, one
    row for every position [k] of a set, with the label [k + 1]. *)
Definition long_rows (es : list Stats.stats_row) : list long_row :=
  flat_map
    (fun j =>
       map (fun k =>
              let setnum := nth k (Stats.unique (map snd es)) 0%Z in
              let magc := nth j Stats.mag_min 0%Q in
              mkLongRow
                (Z.of_nat (S k)) magc
                (round2 (Stats.getB (Stats.statsobj es setnum magc)))
                (round2 (Stats.getB_err (Stats.statsobj es setnum magc))))
           (seq 0 50))
    (seq 0 (length Stats.mag_min)).

End Display.

(** ** Sample catalogues *)

Module Samples.

Definition quake_at (t : Z) (m : Q) : quake :=
  mkQuake t 1 m String.EmptyString 0 0.

(** Fifteen explosions: twelve early ones, then the boundaries 100, 200
    and 300. *)
Definition explode15 : list Z :=
  [1; 2; 3; 4; 5; 6; 7; 8; 9; 10; 11; 12; 100; 200; 300]%Z.

Definition quakes5 : list quake :=
  [quake_at 50 (20 # 10); quake_at 150 (21 # 10); quake_at 250 (19 # 10);
   quake_at 300 (25 # 10); quake_at 350 (18 # 10)].

(** Three rows of [events_stats]: set 1 has two events of magnitude 2.0 and
    2.2, set 2 a single event of magnitude 1.9. *)
Definition stats3 : list Stats.stats_row :=
  [(20 # 10, 1%Z); (22 # 10, 1%Z); (19 # 10, 2%Z)]%Q.

(** The same rows as events, after an event of set 0. *)
Definition events4 : list event :=
  [mkEvent (quake_at 50 (30 # 10)) 0; mkEvent (quake_at 150 (20 # 10)) 1;
   mkEvent (quake_at 160 (22 # 10)) 1; mkEvent (quake_at 250 (19 # 10)) 2].

(** Fifty sets of one event of magnitude 2.0 each. *)
Definition events50 : list event :=
  map (fun k => mkEvent (quake_at (Z.of_nat k) (20 # 10)) (Z.of_nat k))
      (seq 1 50).

(** The first row of the long table of the fifty-set catalogue. *)
Definition events50_first_row : Display.long_row :=
  let obj := Stats.statsobj (Stats.events_stats events50) 1 (18 # 10) in
  Display.mkLongRow 1 (18 # 10)
    (Display.round2 (Stats.getB obj)) (Display.round2 (Stats.getB_err obj)).

End Samples.

(** * Properties *)

(** ** Slices and exceptions *)

Lemma slice_from_to_last_removelast (A : Type) (a : nat) (l : list A) :
  slice_from_to_last a l = removelast (skipn a l).
Proof.
  unfold slice_from_to_last.
  rewrite removelast_firstn_len, length_skipn.
  f_equal. lia.
Qed.

Lemma skipn_S_tl (A : Type) (a : nat) (l : list A) :
  skipn (S a) l = tl (skipn a l).
Proof.
  revert l. induction a as [|a IH]; intros [|x l]; try reflexivity.
  change (skipn (S (S a)) (x :: l)) with (skipn (S a) l).
  rewrite IH. reflexivity.
Qed.

Lemma last_item_cons (A : Type) (x d : A) (l : list A) :
  last_item (x :: l) = Ok (last (x :: l) d).
Proof.
  unfold last_item.
  destruct (rev (x :: l)) as [|y r] eqn:E.
  - apply (f_equal (@length A)) in E. rewrite length_rev in E. discriminate.
  - f_equal. apply (f_equal (@rev A)) in E. rewrite rev_involutive in E.
    rewrite E. simpl. symmetry. apply last_last.
Qed.

(** ** Lists paired position by position *)

Section ZipWith.

Variables A B C : Type.
Variable f : A -> B -> C.

Lemma length_zip_with (l1 : list A) (l2 : list B) :
  length (zip_with f l1 l2) = Nat.min (length l1) (length l2).
Proof.
  revert l2. induction l1 as [|a l1 IH]; intros [|b l2]; cbn; auto.
Qed.

Lemma nth_zip_with (l1 : list A) (l2 : list B) (i : nat) (da : A) (db : B)
      (dc : C) :
  (i < length l1)%nat -> (i < length l2)%nat ->
  nth i (zip_with f l1 l2) dc = f (nth i l1 da) (nth i l2 db).
Proof.
  revert l2 i. induction l1 as [|a l1 IH]; intros [|b l2] [|i] H1 H2;
    cbn in *; try lia; auto.
  apply IH; lia.
Qed.

Lemma in_zip_with (l1 : list A) (l2 : list B) (x : C) (da : A) (db : B) :
  In x (zip_with f l1 l2) <->
  exists i, (i < length l1)%nat /\ (i < length l2)%nat /\
            x = f (nth i l1 da) (nth i l2 db).
Proof.
  revert l2. induction l1 as [|a l1 IH]; intros [|b l2]; cbn.
  - split; [tauto | intros [i [H _]]; lia].
  - split; [tauto | intros [i [H _]]; lia].
  - split; [tauto | intros [i [_ [H _]]]; lia].
  - rewrite IH. split.
    + intros [E | [i [H1 [H2 E]]]].
      * exists 0%nat. repeat split; auto; lia.
      * exists (S i). repeat split; auto; lia.
    + intros [[|i] [H1 [H2 E]]].
      * left. auto.
      * right. exists i. repeat split; auto; lia.
Qed.

Lemma zip_with_app (l1 l1' : list A) (l2 l2' : list B) :
  length l1 = length l2 ->
  zip_with f (l1 ++ l1') (l2 ++ l2') = zip_with f l1 l2 ++ zip_with f l1' l2'.
Proof.
  revert l2. induction l1 as [|a l1 IH]; intros [|b l2] H; cbn in *;
    try discriminate; auto.
  f_equal. apply IH. lia.
Qed.

Lemma zip_with_flat_map (J : Type) (g1 : J -> list A) (g2 : J -> list B)
      (js : list J) :
  (forall j, In j js -> length (g1 j) = length (g2 j)) ->
  zip_with f (flat_map g1 js) (flat_map g2 js) =
  flat_map (fun j => zip_with f (g1 j) (g2 j)) js.
Proof.
  induction js as [|j js IH]; intros H; cbn; auto.
  rewrite zip_with_app by (apply H; now left).
  f_equal. apply IH. intros j' Hj. apply H. now right.
Qed.

End ZipWith.

Lemma zip_with_map (A A' B B' C : Type) (f : A' -> B' -> C) (g : A -> A')
      (h : B -> B') (l1 : list A) (l2 : list B) :
  zip_with f (map g l1) (map h l2) = zip_with (fun a b => f (g a) (h b)) l1 l2.
Proof.
  revert l2. induction l1 as [|a l1 IH]; intros [|b l2]; cbn; auto.
  f_equal. apply IH.
Qed.

Lemma length_flat_map_uniform (A B : Type) (g : A -> list B) (l : list A)
      (n : nat) :
  (forall a, In a l -> length (g a) = n) ->
  length (flat_map g l) = (length l * n)%nat.
Proof.
  induction l as [|a l IH]; intros H; cbn; auto.
  rewrite length_app, (H a) by (now left).
  rewrite IH; [reflexivity|].
  intros a' Ha. apply H. now right.
Qed.

(** ** The explosion sets *)

Module PartitionFacts.

Import Partition.

Lemma start_times_boundaries (explode : list Z) :
  start_times explode = removelast (skipn 12 explode).
Proof. apply slice_from_to_last_removelast. Qed.

Lemma end_times_boundaries (explode : list Z) :
  end_times explode = tl (skipn 12 explode).
Proof. unfold end_times, slice_from. apply skipn_S_tl. Qed.

Lemma combine_consecutive (b : list Z) :
  combine (removelast b) (tl b) = consecutive b.
Proof.
  induction b as [|x [|y b] IH]; auto.
  change (removelast (x :: y :: b)) with (x :: removelast (y :: b)).
  simpl tl. simpl combine. simpl consecutive. f_equal. exact IH.
Qed.

Lemma length_consecutive (b : list Z) :
  length (consecutive b) = (length b - 1)%nat.
Proof.
  induction b as [|x [|y b] IH]; auto.
  change (consecutive (x :: y :: b)) with ((x, y) :: consecutive (y :: b)).
  simpl length in *. lia.
Qed.

(** The loop treats every row on its own. *)
Lemma fold_loop_body (pairs : list (Z * Z)) (events : list event) (i : Z) :
  fold_left loop_body pairs (events, i) =
  (map (fun e => set_ex_set (loop_set (DTtime (row e)) pairs i (ex_set e)) e)
       events,
   (i + Z.of_nat (length pairs))%Z).
Proof.
  revert events i. induction pairs as [|[s e] ps IH]; intros events i.
  - simpl. f_equal.
    + rewrite <- (map_id events) at 1. apply map_ext. intros [r x]. reflexivity.
    + lia.
  - cbn [fold_left loop_body]. rewrite IH. f_equal.
    + unfold loc_assign. rewrite map_map. apply map_ext. intros [r x].
      cbn [loop_set row ex_set].
      destruct ((DTtime r >=? s)%Z && (DTtime r <? e)%Z); reflexivity.
    + cbn [length]. lia.
Qed.

(** Cell 4 in closed form. *)
Lemma assign_sets_final_set (starts ends : list Z) (quakes : list quake)
      (last_end : Z) :
  last_item ends = Ok last_end ->
  assign_sets starts ends quakes =
  Ok (map (fun q => mkEvent q (final_set (DTtime q) (combine starts ends)
                                          last_end))
          quakes).
Proof.
  intros Hlast. unfold assign_sets. rewrite fold_loop_body, Hlast.
  cbn [bind]. f_equal. unfold loc_assign. rewrite !map_map.
  apply map_ext. intros q. unfold final_set. cbn.
  destruct (DTtime q >? last_end)%Z; reflexivity.
Qed.

(** Decide the comparisons of a mask by the order facts at hand. *)
Ltac mask_cases :=
  rewrite ?Z.geb_leb, ?Z.gtb_ltb;
  repeat match goal with
         | |- context [(?a <=? ?b)%Z] => destruct (Z.leb_spec a b); try lia
         | |- context [(?a <? ?b)%Z] => destruct (Z.ltb_spec a b); try lia
         end;
  cbn [andb].

(** A row earlier than every boundary still to come is left alone. *)
Lemma loop_set_before (t : Z) (b : list Z) (i cur : Z) :
  Forall (fun x => (t < x)%Z) b ->
  loop_set t (consecutive b) i cur = cur.
Proof.
  revert i cur. induction b as [|x [|y b] IH]; intros i cur Hb; auto.
  change (consecutive (x :: y :: b)) with ((x, y) :: consecutive (y :: b)).
  cbn [loop_set]. inversion Hb as [|? ? Hx Hb']; subst.
  rewrite IH by exact Hb'. mask_cases; reflexivity.
Qed.

(** A row at or after every end still to come is left alone. *)
Lemma loop_set_beyond (t : Z) (b : list Z) (i cur : Z) :
  Forall (fun x => (x <= t)%Z) (tl b) ->
  loop_set t (consecutive b) i cur = cur.
Proof.
  revert i cur. induction b as [|x [|y b] IH]; intros i cur Hb; auto.
  change (consecutive (x :: y :: b)) with ((x, y) :: consecutive (y :: b)).
  cbn [loop_set]. cbn [tl] in Hb. inversion Hb as [|? ? Hy Hb']; subst.
  rewrite IH by exact Hb'. mask_cases; reflexivity.
Qed.

Lemma StronglySorted_tail_above (x t : Z) (b : list Z) :
  StronglySorted Z.le (x :: b) -> (t < x)%Z -> Forall (fun y => (t < y)%Z) (x :: b).
Proof.
  intros Hs Ht. apply StronglySorted_inv in Hs. destruct Hs as [_ Hall].
  constructor; [exact Ht|].
  eapply Forall_impl; [|exact Hall]. cbn. intros; lia.
Qed.

(** A row inside the [k]-th interval (counting from 0) leaves the loop with
    the number that the counter had for that interval. *)
Lemma loop_set_inside (t : Z) (b : list Z) (k : nat) (i cur : Z) :
  StronglySorted Z.le b ->
  (S k < length b)%nat ->
  (nth k b 0 <= t < nth (S k) b 0)%Z ->
  loop_set t (consecutive b) i cur = (i + Z.of_nat k)%Z.
Proof.
  revert k i cur. induction b as [|x [|y b] IH]; intros k i cur Hs Hk Ht;
    simpl length in Hk; try lia.
  change (consecutive (x :: y :: b)) with ((x, y) :: consecutive (y :: b)).
  cbn [loop_set]. pose proof (StronglySorted_inv Hs) as [Hs' _].
  destruct k as [|k].
  - cbn [nth] in Ht.
    rewrite loop_set_before by (apply StronglySorted_tail_above; [exact Hs'|lia]).
    mask_cases. lia.
  - change (nth (S k) (x :: y :: b) 0%Z) with (nth k (y :: b) 0%Z) in Ht.
    change (nth (S (S k)) (x :: y :: b) 0%Z) with (nth (S k) (y :: b) 0%Z) in Ht.
    rewrite (IH k) by (try assumption; simpl length; lia). lia.
Qed.

Lemma sorted_below_last (l : list Z) (d : Z) :
  StronglySorted Z.le l -> Forall (fun x => (x <= last l d)%Z) l.
Proof.
  induction 1 as [|x l Hs IH Hall]; [constructor|].
  destruct l as [|y l].
  - constructor; [cbn; lia | constructor].
  - change (last (x :: y :: l) d) with (last (y :: l) d).
    constructor; [|exact IH].
    rewrite Forall_forall in Hall. apply Hall.
    destruct (@exists_last _ (y :: l)) as [l' [z E]]; [discriminate|].
    rewrite E, last_last. apply in_or_app. right. now left.
Qed.

Section SortedBoundaries.

(** The boundaries: the explosion times from the first of the larger
    explosions on, at least two of them, in ascending order. *)
Variables b0 b1 : Z.
Variable rest : list Z.
Let b : list Z := b0 :: b1 :: rest.
Hypothesis b_sorted : StronglySorted Z.le b.

Let last_b : Z := last b b0.

Lemma last_item_ends : last_item (tl b) = Ok last_b.
Proof.
  unfold b, last_b. cbn [tl]. rewrite (last_item_cons _ b1 b0). reflexivity.
Qed.

Lemma boundaries_below_last : Forall (fun x => (x <= last_b)%Z) b.
Proof. apply sorted_below_last, b_sorted. Qed.

(** The time of a row decides its set. *)
Lemma set_of_quake (quakes : list quake) :
  assign_sets (removelast b) (tl b) quakes =
  Ok (map (fun q => mkEvent q (final_set (DTtime q) (consecutive b) last_b))
          quakes).
Proof.
  rewrite assign_sets_final_set with (last_end := last_b)
    by apply last_item_ends.
  rewrite combine_consecutive. reflexivity.
Qed.

(** Before the first boundary: set 0. *)
Lemma final_set_before_first (t : Z) :
  (t < b0)%Z -> final_set t (consecutive b) last_b = 0%Z.
Proof.
  intros Ht. unfold final_set.
  pose proof boundaries_below_last as Hl. apply Forall_inv in Hl.
  mask_cases.
  apply loop_set_before, StronglySorted_tail_above; assumption.
Qed.

(** Between the boundaries [k-1] and [k]: set [k]. *)
Lemma final_set_between (t : Z) (k : nat) :
  (1 <= k < length b)%nat ->
  (nth (k - 1) b 0 <= t < nth k b 0)%Z ->
  final_set t (consecutive b) last_b = Z.of_nat k.
Proof.
  intros Hk Ht. unfold final_set.
  assert (nth k b 0 <= last_b)%Z as Hle.
  { pose proof boundaries_below_last as Hl. rewrite Forall_forall in Hl.
    apply Hl, nth_In. lia. }
  mask_cases.
  destruct k as [|k]; [lia|].
  replace (S k - 1)%nat with k in Ht by lia.
  rewrite (loop_set_inside t b k) by (try assumption; lia). lia.
Qed.

(** After the last boundary: the counter after the loop, one more than the
    number of intervals. *)
Lemma final_set_after_last (t : Z) :
  (last_b < t)%Z ->
  final_set t (consecutive b) last_b = Z.of_nat (length b).
Proof.
  intros Ht. unfold final_set.
  mask_cases.
  rewrite length_consecutive. unfold b. simpl length. lia.
Qed.

(** At the last boundary itself no mask holds: the row keeps set 0. *)
Lemma final_set_at_last :
  final_set last_b (consecutive b) last_b = 0%Z.
Proof.
  unfold final_set.
  mask_cases.
  apply loop_set_beyond.
  pose proof boundaries_below_last as Hl. apply Forall_inv_tail in Hl.
  exact Hl.
Qed.

End SortedBoundaries.

(** Cell 4 on the explosion catalogue: every quake keeps its row and gets the
    set number that its time decides. *)
Lemma group_earthquakes_final_set (explode : list Z) (quakes : list quake)
      (b0 b1 : Z) (rest : list Z) :
  skipn 12 explode = b0 :: b1 :: rest ->
  group_earthquakes explode quakes =
  Ok (map (fun q => mkEvent q (final_set (DTtime q)
                                          (consecutive (b0 :: b1 :: rest))
                                          (last (b0 :: b1 :: rest) b0)))
          quakes).
Proof.
  intros Hb. unfold group_earthquakes.
  rewrite start_times_boundaries, end_times_boundaries, Hb.
  change (tl (b0 :: b1 :: rest)) with (b1 :: rest).
  rewrite assign_sets_final_set with (last_end := last (b0 :: b1 :: rest) b0).
  - rewrite <- (combine_consecutive (b0 :: b1 :: rest)). reflexivity.
  - apply (last_item_cons _ b1 b0).
Qed.

(** C1, on the sample catalogue with the boundaries 100, 200 and 300. The
    quakes at 50, 150, 250 and 350 get the sets 0, 1, 2 and 3; the quake at
    300, the last boundary itself, gets set 0 and not the final set 3. *)
Theorem C1_quake_at_last_boundary_in_set_0 :
  exists events,
    group_earthquakes Samples.explode15 Samples.quakes5 = Ok events /\
    map (fun e => DTtime (row e)) events = [50; 150; 250; 300; 350]%Z /\
    map ex_set events = [0; 1; 2; 0; 3]%Z.
Proof.
  eexists. split; [vm_compute; reflexivity|]. split; reflexivity.
Qed.

(** C5, as far as the code goes. With at least two boundaries in ascending
    order every quake gets one set number, which is a function of its time
    alone; but a quake at the time of the last boundary lies in none of the
    intervals and keeps set 0, the set of the quakes before the first
    boundary. *)
Theorem C5_last_boundary_in_no_interval (explode : list Z)
        (quakes : list quake) (b0 b1 : Z) (rest : list Z) :
  skipn 12 explode = b0 :: b1 :: rest ->
  StronglySorted Z.le (b0 :: b1 :: rest) ->
  exists events,
    group_earthquakes explode quakes = Ok events /\
    map row events = quakes /\
    (forall e, In e events ->
       ex_set e = final_set (DTtime (row e)) (consecutive (b0 :: b1 :: rest))
                            (last (b0 :: b1 :: rest) b0)) /\
    (forall e, In e events ->
       DTtime (row e) = last (b0 :: b1 :: rest) b0 -> ex_set e = 0%Z).
Proof.
  intros Hb Hs. eexists. split; [apply group_earthquakes_final_set, Hb|].
  split; [|split].
  - rewrite map_map. cbn [row]. apply map_id.
  - intros e He. apply in_map_iff in He. destruct He as [q [E _]].
    subst e. reflexivity.
  - intros e He Ht. apply in_map_iff in He. destruct He as [q [E _]].
    subst e. cbn [row ex_set] in *. rewrite Ht.
    apply final_set_at_last, Hs.
Qed.

Lemma C5_last_boundary_in_no_interval_witness :
  skipn 12 Samples.explode15 = [100; 200; 300]%Z /\
  StronglySorted Z.le [100; 200; 300]%Z /\
  exists events,
    group_earthquakes Samples.explode15 Samples.quakes5 = Ok events /\
    map row events = Samples.quakes5 /\
    (forall e, In e events -> DTtime (row e) = 300%Z -> ex_set e = 0%Z).
Proof.
  assert (StronglySorted Z.le [100; 200; 300]%Z) as Hs
    by (repeat constructor; lia).
  split; [reflexivity|]. split; [exact Hs|].
  destruct (C5_last_boundary_in_no_interval Samples.explode15 Samples.quakes5
              100 200 [300%Z] eq_refl Hs) as [events [Hg [Hr [_ Hl]]]].
  exists events. split; [exact Hg|]. split; [exact Hr | exact Hl].
Defined.

End PartitionFacts.

(** ** The b-value statistics *)

Module StatsFacts.

Import Stats.

Local Open Scope R_scope.

Lemma fdiv_finite (a b : R) : b <> 0 -> fdiv (Fin a) (Fin b) = Fin (a / b).
Proof.
  intros Hb. unfold fdiv. destruct (Req_dec_T b 0); [contradiction|reflexivity].
Qed.

Lemma ln_10_pos : 0 < ln 10.
Proof. rewrite <- ln_1. apply ln_increasing; lra. Qed.

(** [math.log10(math.e)] is [1 / ln 10], a positive number. *)
Lemma log10_e : log10 math_e = / ln 10.
Proof. unfold log10, math_e. rewrite ln_exp. lra. Qed.

Lemma log10_e_pos : 0 < log10 math_e.
Proof. rewrite log10_e. apply Rinv_0_lt_compat, ln_10_pos. Qed.

(** [0.5*0.1] is the half bin 0.05. *)
Lemma half_bin (c : Q) : Q2R (c - (5 # 10) * (1 # 10)) = Q2R c - 0.05.
Proof.
  rewrite Q2R_minus, Q2R_mult. unfold Q2R. cbn. lra.
Qed.

Lemma Q2R_of_nat (n : nat) : Q2R (inject_Z (Z.of_nat n)) = INR n.
Proof. unfold Q2R. cbn. rewrite <- INR_IZR_INZ. lra. Qed.

(** The arithmetic mean of a list of magnitudes, as a real number. *)
Lemma Q2R_mean (l : list Q) :
  l <> [] ->
  Q2R (Qsum l / inject_Z (Z.of_nat (length l))) = Q2R (Qsum l) / INR (length l).
Proof.
  intros Hl. rewrite Q2R_div.
  - rewrite Q2R_of_nat. reflexivity.
  - destruct l as [|x l]; [contradiction|].
    unfold Qeq. cbn. lia.
Qed.

Lemma Qsum_lower_bound (c : Q) (l : list Q) :
  Forall (fun m => (c <= m)%Q) l ->
  INR (length l) * Q2R c <= Q2R (Qsum l).
Proof.
  induction 1 as [|m l Hm _ IH].
  - cbn. unfold Q2R. cbn. lra.
  - change (Qsum (m :: l)) with (m + Qsum l)%Q.
    rewrite Q2R_plus. change (length (m :: l)) with (S (length l)).
    rewrite S_INR. apply Qle_Rle in Hm. lra.
Qed.

Lemma mean_lower_bound (c : Q) (l : list Q) :
  l <> [] ->
  Forall (fun m => (c <= m)%Q) l ->
  Q2R c <= Q2R (Qsum l) / INR (length l).
Proof.
  intros Hl Hall. pose proof (Qsum_lower_bound c l Hall) as Hs.
  assert (0 < INR (length l)) as Hn.
  { destruct l; [contradiction|]. apply lt_0_INR. simpl. lia. }
  apply Rmult_le_reg_r with (r := INR (length l)); [exact Hn|].
  unfold Rdiv. rewrite Rmult_assoc, Rinv_l by lra. lra.
Qed.

(** The magnitudes handed to [SetStats] by the loop all reach the
    completeness magnitude and belong to the set. *)
Lemma events_list_spec (es : list stats_row) (magc : Q) (setnum : Z) (m : Q) :
  In m (events_list es magc setnum) <->
  exists r, In r es /\ fst r = m /\ (magc <= fst r)%Q /\ snd r = setnum.
Proof.
  unfold events_list. rewrite in_map_iff. split.
  - intros [r [Hm Hr]]. apply filter_In in Hr. destruct Hr as [Hin Hb].
    apply andb_true_iff in Hb. destruct Hb as [Hq Hs].
    exists r. repeat split; auto.
    + apply Qle_bool_iff, Hq.
    + apply Z.eqb_eq, Hs.
  - intros [r [Hin [Hm [Hq Hs]]]]. exists r. split; [exact Hm|].
    apply filter_In. split; [exact Hin|].
    apply andb_true_iff. split; [apply Qle_bool_iff, Hq | apply Z.eqb_eq, Hs].
Qed.

Lemma events_list_complete (es : list stats_row) (magc : Q) (setnum : Z) :
  Forall (fun m => (magc <= m)%Q) (events_list es magc setnum).
Proof.
  apply Forall_forall. intros m Hm. apply events_list_spec in Hm.
  destruct Hm as [r [_ [Hm [Hq _]]]]. subst m. exact Hq.
Qed.

Lemma np_mean_nonempty (l : list Q) :
  l <> [] -> to_real (np_mean l) = Fin (Q2R (Qsum l) / INR (length l)).
Proof.
  intros Hl. rewrite <- Q2R_mean by exact Hl.
  destruct l; [contradiction|]. reflexivity.
Qed.

Section NonemptyComplete.

(** A nonempty list of magnitudes, none below the completeness
    magnitude. *)
Variable l : list Q.
Variable c : Q.
Hypothesis l_nonempty : l <> [].
Hypothesis l_complete : Forall (fun m => (c <= m)%Q) l.

Let mean : R := Q2R (Qsum l) / INR (length l).

Lemma Ntot_pos : 0 < INR (Ntot (init l c)).
Proof.
  cbn. destruct l; [contradiction|]. apply lt_0_INR. simpl. lia.
Qed.

Lemma sqrt_Ntot_pos : 0 < sqrt (INR (Ntot (init l c))).
Proof. apply sqrt_lt_R0, Ntot_pos. Qed.

Lemma magmu_mean : to_real (magmu (init l c)) = Fin mean.
Proof.
  apply np_mean_nonempty, l_nonempty.
Qed.

Lemma getB_divisor_value :
  getB_divisor (init l c) = Fin (mean - (Q2R c - 0.05)).
Proof.
  unfold getB_divisor. rewrite magmu_mean. cbn [mc init fsub].
  rewrite half_bin. reflexivity.
Qed.

Lemma getB_divisor_bound : 0.05 <= mean - (Q2R c - 0.05).
Proof.
  pose proof (mean_lower_bound c l l_nonempty l_complete). unfold mean. lra.
Qed.

Lemma getB_value :
  getB (init l c) = Fin (log10 math_e / (mean - (Q2R c - 0.05))).
Proof.
  unfold getB. rewrite getB_divisor_value. apply fdiv_finite.
  pose proof getB_divisor_bound. lra.
Qed.

Lemma getB_err_value :
  getB_err (init l c) =
  Fin (log10 math_e / (mean - (Q2R c - 0.05)) / sqrt (INR (length l))).
Proof.
  unfold getB_err. rewrite getB_value. apply fdiv_finite.
  pose proof sqrt_Ntot_pos as H. cbn in H. lra.
Qed.

Lemma getA_value :
  getA (init l c) =
  Ok (Fin (log10 (INR (length l))
           - log10 math_e / (mean - (Q2R c - 0.05)) * Q2R c)).
Proof.
  unfold getA. rewrite getB_value. cbn [Ntot init mc].
  destruct l; [contradiction|]. reflexivity.
Qed.

End NonemptyComplete.

(** Without a qualifying event both estimates are [nan]. *)
Lemma getB_empty (c : Q) : getB (init [] c) = NaN.
Proof. reflexivity. Qed.

Lemma getB_err_empty (c : Q) : getB_err (init [] c) = NaN.
Proof. reflexivity. Qed.

Lemma getA_empty (c : Q) : getA (init [] c) = Raise ValueError.
Proof. reflexivity. Qed.

(** *** The frames filled by the loops *)

Lemma in_unique (x : Z) (l : list Z) : In x (unique l) <-> In x l.
Proof.
  induction l as [|y l IH]; [reflexivity|].
  cbn [unique]. split.
  - intros [H|H]; [left; exact H|].
    apply filter_In in H. right. apply IH, H.
  - intros [H|H]; [left; exact H|].
    destruct (Z.eq_dec x y) as [E|E]; [left; auto|].
    right. apply filter_In. split; [apply IH, H|].
    apply negb_true_iff, Z.eqb_neq, E.
Qed.

Lemma fill_rows (f : SetStats -> np_float R) (es : list stats_row)
      (setnum : Z) (cells : list (Q * np_float R)) :
  In (setnum, cells) (fill f es) <->
  In setnum (map snd es) /\
  cells = map (fun magc => (magc, f (statsobj es setnum magc))) mag_min.
Proof.
  unfold fill. rewrite in_map_iff. split.
  - intros [s [E Hs]]. inversion E; subst. split; [|reflexivity].
    apply in_unique, Hs.
  - intros [Hs E]. exists setnum. split; [rewrite E; reflexivity|].
    apply in_unique, Hs.
Qed.

Lemma fill_cell (f : SetStats -> np_float R) (es : list stats_row)
      (setnum : Z) (magc : Q) :
  In setnum (map snd es) -> In magc mag_min ->
  exists cells,
    In (setnum, cells) (fill f es) /\
    In (magc, f (statsobj es setnum magc)) cells.
Proof.
  intros Hs Hm. eexists. split.
  - apply fill_rows. split; [exact Hs|reflexivity].
  - apply in_map_iff. exists magc. split; [reflexivity|exact Hm].
Qed.

Lemma events_stats_spec (events : list event) (r : stats_row) :
  In r (events_stats events) <->
  exists e, In e events /\ r = (mag (row e), ex_set e) /\ ex_set e <> 0%Z.
Proof.
  unfold events_stats. rewrite filter_In, in_map_iff. split.
  - intros [[e [E He]] Hb]. exists e. subst r. cbn in Hb.
    repeat split; auto. apply Z.eqb_neq, negb_true_iff, Hb.
  - intros [e [He [E Hn]]]. subst r. split; [exists e; auto|].
    cbn. apply negb_true_iff, Z.eqb_neq, Hn.
Qed.

Lemma with_ex_set_fifty (df : stats_frame) :
  length df = 50%nat ->
  with_ex_set df = Ok (combine (map Z.of_nat (seq 1 50)) df).
Proof.
  intros H. unfold with_ex_set. destruct df as [|r df]; [discriminate|].
  rewrite H. reflexivity.
Qed.

Lemma length_fill (f : SetStats -> np_float R) (es : list stats_row) :
  length (fill f es) = length (unique (map snd es)).
Proof. unfold fill. apply length_map. Qed.

(** *** The estimates of a set at a completeness magnitude *)

(** C3. For a set and a completeness magnitude with at least one qualifying
    event, the qualifying events are the events of the set whose magnitude
    reaches the completeness magnitude, and the b-value, as returned by
    [getB] and as stored in [bvals_df], is [log10(e)] divided by the
    arithmetic mean of the qualifying magnitudes minus the completeness
    magnitude less 0.05. *)
Theorem C3_b_value_formula (es : list stats_row) (setnum : Z) (magc : Q) :
  let qualifying := events_list es magc setnum in
  let mean := Q2R (Qsum qualifying) / INR (length qualifying) in
  let b := log10 math_e / (mean - (Q2R magc - 0.05)) in
  In setnum (map snd es) ->
  In magc mag_min ->
  qualifying <> [] ->
  (forall m, In m qualifying <->
             exists r, In r es /\ fst r = m /\ (magc <= fst r)%Q
                       /\ snd r = setnum) /\
  getB (statsobj es setnum magc) = Fin b /\
  exists cells, In (setnum, cells) (bvals_df es) /\ In (magc, Fin b) cells.
Proof.
  intros qualifying mean b Hs Hm Hq. split; [|split].
  - intros m. apply events_list_spec.
  - apply getB_value; [exact Hq | apply events_list_complete].
  - destruct (fill_cell getB es setnum magc Hs Hm) as [cells [Hrow Hcell]].
    exists cells. split; [exact Hrow|].
    unfold statsobj in Hcell.
    rewrite getB_value in Hcell;
      [exact Hcell | exact Hq | apply events_list_complete].
Qed.

(** C4. With at least one qualifying event the b-value is a finite number
    and the standard error, as returned by [getB_err] and as stored in
    [berrs_df], is that number divided by the square root of the number of
    qualifying events. *)
Theorem C4_b_error_is_b_over_sqrt_N (es : list stats_row) (setnum : Z)
        (magc : Q) :
  let N := length (events_list es magc setnum) in
  In setnum (map snd es) ->
  In magc mag_min ->
  (1 <= N)%nat ->
  exists b : R,
    getB (statsobj es setnum magc) = Fin b /\
    getB_err (statsobj es setnum magc) = Fin (b / sqrt (INR N)) /\
    exists cells,
      In (setnum, cells) (berrs_df es) /\ In (magc, Fin (b / sqrt (INR N))) cells.
Proof.
  intros N Hs Hm HN.
  assert (events_list es magc setnum <> []) as Hq.
  { intros E. unfold N in HN. rewrite E in HN. cbn in HN. lia. }
  pose proof (events_list_complete es magc setnum) as Hc.
  eexists. split; [apply (getB_value _ _ Hq Hc)|].
  split; [apply (getB_err_value _ _ Hq Hc)|].
  destruct (fill_cell getB_err es setnum magc Hs Hm) as [cells [Hrow Hcell]].
  exists cells. split; [exact Hrow|].
  unfold statsobj in Hcell. rewrite (getB_err_value _ _ Hq Hc) in Hcell.
  exact Hcell.
Qed.

(** C6, amended. The loop of cell 8 stores [getB] and [getB_err] only; it
    does not call [getA]. Called on the object that the loop builds for a set
    and a completeness magnitude with N >= 1 qualifying events, [getA]
    returns [log10(N)] minus the b-value times the completeness magnitude. *)
Theorem C6_a_value_formula (es : list stats_row) (setnum : Z) (magc : Q) :
  let N := length (events_list es magc setnum) in
  (1 <= N)%nat ->
  exists b : R,
    getB (statsobj es setnum magc) = Fin b /\
    getA (statsobj es setnum magc) = Ok (Fin (log10 (INR N) - b * Q2R magc)).
Proof.
  intros N HN.
  assert (events_list es magc setnum <> []) as Hq.
  { intros E. unfold N in HN. rewrite E in HN. cbn in HN. lia. }
  pose proof (events_list_complete es magc setnum) as Hc.
  eexists. split; [apply (getB_value _ _ Hq Hc)|].
  apply (getA_value _ _ Hq Hc).
Qed.


(** C2, as the code has it. For a set and a completeness magnitude without
    a qualifying event, [getB] and [getB_err] return [nan], and [nan] is what
    the loop stores in [bvals_df] and [berrs_df]; nothing is raised. *)
Theorem C2_no_event_gives_nan (es : list stats_row) (setnum : Z) (magc : Q) :
  In setnum (map snd es) ->
  In magc mag_min ->
  events_list es magc setnum = [] ->
  getB (statsobj es setnum magc) = NaN /\
  getB_err (statsobj es setnum magc) = NaN /\
  (exists cells, In (setnum, cells) (bvals_df es) /\ In (magc, NaN) cells) /\
  (exists cells, In (setnum, cells) (berrs_df es) /\ In (magc, NaN) cells).
Proof.
  intros Hs Hm Hq.
  assert (getB (statsobj es setnum magc) = NaN) as Hb
    by (unfold statsobj; rewrite Hq; apply getB_empty).
  assert (getB_err (statsobj es setnum magc) = NaN) as He
    by (unfold statsobj; rewrite Hq; apply getB_err_empty).
  repeat split; auto.
  - destruct (fill_cell getB es setnum magc Hs Hm) as [cells [Hrow Hcell]].
    rewrite Hb in Hcell. exists cells. auto.
  - destruct (fill_cell getB_err es setnum magc Hs Hm) as [cells [Hrow Hcell]].
    rewrite He in Hcell. exists cells. auto.
Qed.

(** C10. The rows of [events_stats] all have a set number other than 0;
    a row of [bvals_df] or of [berrs_df] is never the row of set 0, and the
    magnitudes behind its estimates are magnitudes of events of that set. *)
Theorem C10_no_estimate_for_set_0 (events : list event) (setnum : Z)
        (cells : list (Q * np_float R)) :
  In (setnum, cells) (bvals_df (events_stats events)) \/
  In (setnum, cells) (berrs_df (events_stats events)) ->
  Forall (fun r => snd r <> 0%Z) (events_stats events) /\
  setnum <> 0%Z /\
  forall magc m,
    In m (events_list (events_stats events) magc setnum) ->
    exists e, In e events /\ mag (row e) = m /\ ex_set e = setnum
              /\ ex_set e <> 0%Z.
Proof.
  intros Hrow.
  assert (In setnum (map snd (events_stats events))) as Hs
    by (destruct Hrow as [H|H]; apply fill_rows in H; apply H).
  split; [|split].
  - apply Forall_forall. intros r Hr. apply events_stats_spec in Hr.
    destruct Hr as [e [_ [E Hn]]]. subst r. exact Hn.
  - apply in_map_iff in Hs. destruct Hs as [r [E Hr]].
    apply events_stats_spec in Hr. destruct Hr as [e [_ [Er Hn]]].
    subst r. cbn in E. congruence.
  - intros magc m Hm. apply events_list_spec in Hm.
    destruct Hm as [r [Hr [E1 [_ E2]]]].
    apply events_stats_spec in Hr. destruct Hr as [e [He [Er Hn]]].
    subst r. cbn in E1, E2. exists e. repeat split; auto.
Qed.

(** *** The estimates on the sample catalogues *)

Lemma stats3_set1_above_18 :
  events_list Samples.stats3 (18 # 10) 1 = [20 # 10; 22 # 10]%Q.
Proof. reflexivity. Qed.

Lemma stats3_set2_above_20 : events_list Samples.stats3 (20 # 10) 2 = [].
Proof. reflexivity. Qed.

Lemma C3_b_value_formula_witness :
  In 1%Z (map snd Samples.stats3) /\
  In (18 # 10)%Q mag_min /\
  events_list Samples.stats3 (18 # 10) 1 <> [] /\
  getB (statsobj Samples.stats3 1 (18 # 10)) =
  Fin (log10 math_e
       / (Q2R (Qsum [20 # 10; 22 # 10]%Q) / INR 2 - (Q2R (18 # 10) - 0.05))).
Proof.
  assert (In 1%Z (map snd Samples.stats3)) as H1 by (simpl; auto).
  assert (In (18 # 10)%Q mag_min) as H2 by (simpl; auto).
  assert (events_list Samples.stats3 (18 # 10) 1 <> []) as H3
    by (rewrite stats3_set1_above_18; discriminate).
  repeat split; auto.
  exact (proj1 (proj2
    (C3_b_value_formula Samples.stats3 1 (18 # 10) H1 H2 H3))).
Defined.

Lemma C4_b_error_is_b_over_sqrt_N_witness :
  In 1%Z (map snd Samples.stats3) /\
  In (18 # 10)%Q mag_min /\
  (1 <= length (events_list Samples.stats3 (18 # 10) 1))%nat /\
  exists b : R,
    getB (statsobj Samples.stats3 1 (18 # 10)) = Fin b /\
    getB_err (statsobj Samples.stats3 1 (18 # 10)) = Fin (b / sqrt (INR 2)).
Proof.
  assert (In 1%Z (map snd Samples.stats3)) as H1 by (simpl; auto).
  assert (In (18 # 10)%Q mag_min) as H2 by (simpl; auto).
  assert (1 <= length (events_list Samples.stats3 (18 # 10) 1))%nat as H3
    by (rewrite stats3_set1_above_18; simpl; lia).
  repeat split; auto.
  destruct (C4_b_error_is_b_over_sqrt_N Samples.stats3 1 (18 # 10) H1 H2 H3)
    as [b [Hb [He _]]].
  exists b. split; [exact Hb | exact He].
Defined.

Lemma C6_a_value_formula_witness :
  (1 <= length (events_list Samples.stats3 (18 # 10) 1))%nat /\
  exists b : R,
    getB (statsobj Samples.stats3 1 (18 # 10)) = Fin b /\
    getA (statsobj Samples.stats3 1 (18 # 10)) =
    Ok (Fin (log10 (INR 2) - b * Q2R (18 # 10))).
Proof.
  assert (1 <= length (events_list Samples.stats3 (18 # 10) 1))%nat as H
    by (rewrite stats3_set1_above_18; simpl; lia).
  split; [exact H|].
  exact (C6_a_value_formula Samples.stats3 1 (18 # 10) H).
Defined.

(** C6, as stated, fails for a pair without a qualifying event. Set 2 of the
    sample has no magnitude of 2.0 or more: N is 0 and [getA] raises
    [ValueError] instead of returning [log10(N) - b*Mc]. *)
Lemma C6_no_event_getA_raises :
  In 2%Z (map snd Samples.stats3) /\
  In (20 # 10)%Q mag_min /\
  length (events_list Samples.stats3 (20 # 10) 2) = 0%nat /\
  getA (statsobj Samples.stats3 2 (20 # 10)) = Raise ValueError.
Proof.
  split; [simpl; auto|].
  split; [simpl; auto 10|].
  split; [rewrite stats3_set2_above_20; reflexivity|].
  unfold statsobj. rewrite stats3_set2_above_20. apply getA_empty.
Qed.


Lemma C2_no_event_gives_nan_witness :
  In 2%Z (map snd Samples.stats3) /\
  In (20 # 10)%Q mag_min /\
  events_list Samples.stats3 (20 # 10) 2 = [] /\
  getB (statsobj Samples.stats3 2 (20 # 10)) = NaN /\
  getB_err (statsobj Samples.stats3 2 (20 # 10)) = NaN.
Proof.
  assert (In 2%Z (map snd Samples.stats3)) as H1 by (simpl; auto).
  assert (In (20 # 10)%Q mag_min) as H2 by (simpl; auto 10).
  pose proof stats3_set2_above_20 as H3.
  destruct (C2_no_event_gives_nan Samples.stats3 2 (20 # 10) H1 H2 H3)
    as [Hb [He _]].
  repeat split; auto.
Defined.

Lemma C10_no_estimate_for_set_0_witness :
  let cells :=
    map (fun magc =>
           (magc, getB (statsobj (events_stats Samples.events4) 1 magc)))
        mag_min in
  In (1%Z, cells) (bvals_df (events_stats Samples.events4)) /\
  Forall (fun r => snd r <> 0%Z) (events_stats Samples.events4) /\
  1%Z <> 0%Z.
Proof.
  intros cells.
  assert (In (1%Z, cells) (bvals_df (events_stats Samples.events4))) as H
    by (left; reflexivity).
  split; [exact H|].
  destruct (C10_no_estimate_for_set_0 Samples.events4 1 cells (or_introl H))
    as [Hall [Hn _]].
  split; [exact Hall | exact Hn].
Defined.

(** The unique sets of the fifty-set catalogue. *)
Lemma events50_sets :
  unique (map snd (events_stats Samples.events50)) = map Z.of_nat (seq 1 50).
Proof. vm_compute. reflexivity. Qed.

Lemma events50_set1_above_21 :
  events_list (events_stats Samples.events50) (21 # 10) 1 = [].
Proof. vm_compute. reflexivity. Qed.

(** C2, as stated, fails on the fifty-set catalogue. Set 1 has no event of
    magnitude 2.1 or more, and yet cell 8 ends without an exception, with
    [nan] in [bvals_df] and in [berrs_df] for set 1 at 2.1. *)
Lemma C2_no_event_no_error :
  events_list (events_stats Samples.events50) (21 # 10) 1 = [] /\
  exists bv be,
    b_values Samples.events50 = Ok (bv, be) /\
    (exists cells, In (1%Z, (1%Z, cells)) bv /\ In ((21 # 10)%Q, NaN) cells) /\
    (exists cells, In (1%Z, (1%Z, cells)) be /\ In ((21 # 10)%Q, NaN) cells).
Proof.
  split; [apply events50_set1_above_21|].
  unfold b_values.
  rewrite !with_ex_set_fifty
    by (unfold bvals_df, berrs_df; rewrite length_fill, events50_sets;
        reflexivity).
  cbn [bind]. do 2 eexists. split; [reflexivity|].
  unfold bvals_df, berrs_df, fill. rewrite events50_sets.
  split; eexists; (split; [left; reflexivity|]);
    apply in_map_iff; exists (21 # 10)%Q; (split; [|simpl; auto 10]);
    f_equal; unfold statsobj; rewrite events50_set1_above_21; reflexivity.
Qed.

End StatsFacts.

(** ** Sorted distinct keys *)

Section SortedUniqueFacts.

Variable A : Type.
Variable cmp : A -> A -> comparison.
Variables eqA ltA : A -> A -> Prop.
Hypothesis cmp_spec :
  forall x y, CompareSpec (eqA x y) (ltA x y) (ltA y x) (cmp x y).
Hypothesis ltA_trans : forall x y z, ltA x y -> ltA y z -> ltA x z.

Lemma in_insert_unique (x y : A) (l : list A) :
  In y (insert_unique cmp x l) -> y = x \/ In y l.
Proof.
  induction l as [|z l IH]; cbn.
  - intros [H|[]]; auto.
  - destruct (cmp x z); cbn; intros H.
    + auto.
    + destruct H as [H|H]; auto.
    + destruct H as [H|H]; auto. destruct (IH H); auto.
Qed.

Lemma insert_unique_keeps (x z : A) (l : list A) :
  In z l -> In z (insert_unique cmp x l).
Proof.
  induction l as [|y l IH]; cbn; [tauto|].
  destruct (cmp x y); cbn; intros [H|H]; auto.
Qed.

Lemma insert_unique_covers (x : A) (l : list A) :
  exists y, In y (insert_unique cmp x l) /\ (y = x \/ eqA x y).
Proof.
  induction l as [|z l IH]; cbn.
  - exists x. auto.
  - destruct (cmp_spec x z) as [E|L|G].
    + exists z. cbn. auto.
    + exists x. cbn. auto.
    + destruct IH as [y [Hy Hxy]]. exists y. cbn. auto.
Qed.

Lemma insert_unique_sorted (x : A) (l : list A) :
  StronglySorted ltA l -> StronglySorted ltA (insert_unique cmp x l).
Proof.
  induction 1 as [|z l Hs IH Hall]; cbn.
  - repeat constructor.
  - destruct (cmp_spec x z) as [E|L|G].
    + constructor; assumption.
    + constructor; [constructor; assumption|].
      constructor; [exact L|].
      eapply Forall_impl; [|exact Hall]. intros a Ha. eapply ltA_trans; eauto.
    + constructor; [exact IH|].
      apply Forall_forall. intros a Ha. apply in_insert_unique in Ha.
      destruct Ha as [Ha|Ha]; [subst a; exact G|].
      rewrite Forall_forall in Hall. auto.
Qed.

Lemma sorted_unique_sorted (l : list A) :
  StronglySorted ltA (sorted_unique cmp l).
Proof.
  induction l as [|x l IH]; cbn; [constructor|].
  apply insert_unique_sorted, IH.
Qed.

Lemma in_sorted_unique (y : A) (l : list A) :
  In y (sorted_unique cmp l) -> In y l.
Proof.
  induction l as [|x l IH]; cbn; [tauto|].
  intros H. apply in_insert_unique in H. destruct H; auto.
Qed.

Lemma sorted_unique_covers (x : A) (l : list A) :
  In x l -> exists y, In y (sorted_unique cmp l) /\ (y = x \/ eqA x y).
Proof.
  induction l as [|z l IH]; cbn; [tauto|].
  intros [E|H].
  - subst z. apply insert_unique_covers.
  - destruct (IH H) as [y [Hy Hxy]]. exists y.
    split; [apply insert_unique_keeps, Hy | exact Hxy].
Qed.

End SortedUniqueFacts.

(** ** The frequency-magnitude tables *)

Module FreqMagFacts.

Import FreqMag.

(** *** Maxima of the columns *)

Lemma fold_max_spec (rs : list (Q * list Z)) (acc : list Z) (n : nat) :
  length acc = n ->
  (forall r, In r rs -> length (snd r) = n) ->
  let res := fold_left (fun acc r' => zip_with Z.max acc (snd r')) rs acc in
  length res = n /\
  forall j, (j < n)%nat ->
    (nth j acc 0 <= nth j res 0)%Z /\
    (forall r, In r rs -> (nth j (snd r) 0 <= nth j res 0)%Z) /\
    (nth j res 0%Z = nth j acc 0%Z \/
     exists r, In r rs /\ nth j res 0%Z = nth j (snd r) 0%Z).
Proof.
  revert acc. induction rs as [|r rs IH]; intros acc Hacc Hrs; cbn.
  - split; [exact Hacc|]. intros j Hj. split; [lia|]. split; [tauto|auto].
  - assert (length (snd r) = n) as Hr by (apply Hrs; now left).
    assert (length (zip_with Z.max acc (snd r)) = n) as Hz
      by (rewrite length_zip_with; lia).
    destruct (IH (zip_with Z.max acc (snd r)) Hz) as [Hlen Hj].
    { intros r' Hr'. apply Hrs. now right. }
    split; [exact Hlen|]. intros j Hjn.
    destruct (Hj j Hjn) as [H1 [H2 H3]].
    rewrite (nth_zip_with _ _ _ Z.max acc (snd r) j 0%Z 0%Z 0%Z) in H1, H3 by lia.
    split; [lia|]. split.
    + intros r' [E|Hr']; [subst r'; lia | apply H2, Hr'].
    + destruct H3 as [H3|[r' [Hr' H3]]].
      * destruct (Z.max_spec (nth j acc 0%Z) (nth j (snd r) 0%Z)) as [[_ E]|[_ E]];
          rewrite E in H3; [right; exists r; auto | left; exact H3].
      * right. exists r'. auto.
Qed.

Lemma max_axis0_spec (df : DataFrame Z) (n : nat) :
  rows df <> [] ->
  (forall r, In r (rows df) -> length (snd r) = n) ->
  length (max_axis0 df) = n /\
  forall j, (j < n)%nat ->
    (forall r, In r (rows df) -> (nth j (snd r) 0 <= nth j (max_axis0 df) 0)%Z) /\
    exists r, In r (rows df) /\ nth j (max_axis0 df) 0%Z = nth j (snd r) 0%Z.
Proof.
  unfold max_axis0. destruct (rows df) as [|r rs]; [contradiction|].
  intros _ Hrs.
  destruct (fold_max_spec rs (snd r) n) as [Hlen Hj].
  { apply Hrs. now left. }
  { intros r' Hr'. apply Hrs. now right. }
  split; [exact Hlen|]. intros j Hjn. destruct (Hj j Hjn) as [H1 [H2 H3]].
  split.
  - intros r' [E|Hr']; [subst r'; exact H1 | apply H2, Hr'].
  - destruct H3 as [H3|[r' [Hr' H3]]].
    + exists r. split; [now left | exact H3].
    + exists r'. split; [now right | exact H3].
Qed.

(** *** The long form of a table *)

Lemma in_unstack (V : Type) (d : V) (df : DataFrame V) (s : Z) (m : Q) (v : V) :
  In (s, m, v) (unstack d df) <->
  exists j r, (j < length (columns df))%nat /\ In r (rows df) /\
              s = nth j (columns df) 0%Z /\ m = fst r /\ v = nth j (snd r) d.
Proof.
  unfold unstack. rewrite in_flat_map. split.
  - intros [j [Hj H]]. apply in_seq in Hj. apply in_map_iff in H.
    destruct H as [r [E Hr]]. inversion E; subst.
    exists j, r. repeat split; auto; lia.
  - intros [j [r [Hj [Hr [Es [Em Ev]]]]]]. exists j. split.
    + apply in_seq. lia.
    + apply in_map_iff. exists r. subst. auto.
Qed.

Lemma length_unstack (V : Type) (d : V) (df : DataFrame V) :
  length (unstack d df) = (length (columns df) * length (rows df))%nat.
Proof.
  unfold unstack.
  rewrite length_flat_map_uniform with (n := length (rows df)).
  - rewrite length_seq. reflexivity.
  - intros j _. apply length_map.
Qed.

(** *** The pivot table *)

Lemma bins_sorted (events : list event) : StronglySorted Qlt (bins events).
Proof.
  apply sorted_unique_sorted with (eqA := Qeq).
  - apply Qcompare_spec.
  - apply Qlt_trans.
Qed.

Lemma bins_cover (events : list event) (e : event) :
  In e events ->
  exists m, In m (bins events) /\ round1 (mag (row e)) == m.
Proof.
  intros He.
  destruct (sorted_unique_covers _ Qcompare Qeq Qlt Qcompare_spec
              (round1 (mag (row e))) (map mr_mag (events_mags events)))
    as [m [Hm Hem]].
  - unfold events_mags. rewrite map_map. cbn.
    apply in_map_iff. exists e. auto.
  - exists m. split; [exact Hm|]. destruct Hem as [E|E]; [subst m|]; auto.
    reflexivity.
Qed.

Lemma columns_quake_sum (events : list event) :
  columns (quake_sum events) = sorted_unique Z.compare (map ex_set events).
Proof.
  unfold quake_sum, pivot_table, events_mags. cbn. rewrite map_map.
  reflexivity.
Qed.

Lemma in_columns (events : list event) (s : Z) :
  In s (columns (quake_sum events)) <-> In s (map ex_set events).
Proof.
  rewrite columns_quake_sum. split.
  - apply in_sorted_unique.
  - intros H.
    destruct (sorted_unique_covers _ Z.compare eq Z.lt Z.compare_spec s _ H)
      as [y [Hy [E|E]]]; subst; exact Hy.
Qed.

Lemma column_of_set (events : list event) (s : Z) :
  In s (map ex_set events) ->
  exists j, (j < length (columns (quake_sum events)))%nat /\
            nth j (columns (quake_sum events)) 0%Z = s.
Proof. intros H. apply In_nth, in_columns, H. Qed.

Lemma rows_quake_sum (events : list event) :
  rows (quake_sum events) =
  map (fun m => (m, map (bin_count events m) (columns (quake_sum events))))
      (bins events).
Proof. reflexivity. Qed.

Lemma quake_sum_row (events : list event) (r : Q * list Z) :
  In r (rows (quake_sum events)) ->
  In (fst r) (bins events) /\
  length (snd r) = length (columns (quake_sum events)) /\
  forall j, (j < length (columns (quake_sum events)))%nat ->
            nth j (snd r) 0%Z
            = bin_count events (fst r) (nth j (columns (quake_sum events)) 0%Z).
Proof.
  rewrite rows_quake_sum. intros H. apply in_map_iff in H.
  destruct H as [m [E Hm]]. subst r. cbn [fst snd].
  split; [exact Hm|]. split; [apply length_map|].
  intros j Hj.
  rewrite nth_indep with (d' := bin_count events m 0%Z)
    by (rewrite length_map; exact Hj).
  apply map_nth.
Qed.

Lemma col_quake_sum (events : list event) (j : nat) :
  (j < length (columns (quake_sum events)))%nat ->
  col j (rows (quake_sum events)) =
  map (fun m => bin_count events m (nth j (columns (quake_sum events)) 0%Z))
      (bins events).
Proof.
  intros Hj. unfold col. rewrite rows_quake_sum at 1. rewrite map_map.
  apply map_ext_in. intros m Hm.
  assert (In (m, map (bin_count events m) (columns (quake_sum events)))
             (rows (quake_sum events))) as Hr.
  { rewrite rows_quake_sum. apply in_map_iff. exists m. auto. }
  apply (quake_sum_row events _ Hr). exact Hj.
Qed.

Lemma bin_count_nonneg (events : list event) (m : Q) (s : Z) :
  (0 <= bin_count events m s)%Z.
Proof. unfold bin_count, count_depth. lia. Qed.

Lemma length_filter_pos (A : Type) (p : A -> bool) (x : A) (l : list A) :
  In x l -> p x = true -> (1 <= length (filter p l))%nat.
Proof.
  intros Hx Hp.
  assert (In x (filter p l)) as H by (apply filter_In; auto).
  destruct (filter p l); [contradiction | cbn; lia].
Qed.

Lemma bin_count_event (events : list event) (e : event) (m : Q) :
  In e events -> round1 (mag (row e)) == m ->
  (1 <= bin_count events m (ex_set e))%Z.
Proof.
  intros He Hm. unfold bin_count, count_depth.
  apply (inj_le 1), length_filter_pos
    with (x := mkMagRow (depth (row e)) (round1 (mag (row e))) (ex_set e)).
  - unfold events_mags. apply in_map_iff. exists e. auto.
  - cbn. rewrite Z.eqb_refl, andb_true_r. apply Qeq_bool_iff, Hm.
Qed.

(** The maximum of the column of a set is the largest of its bin counts,
    and is not zero. *)
Lemma column_max (events : list event) (j : nat) :
  (j < length (columns (quake_sum events)))%nat ->
  let s := nth j (columns (quake_sum events)) 0%Z in
  let M := nth j (max_axis0 (quake_sum events)) 0%Z in
  (0 < M)%Z /\
  (forall m, In m (bins events) -> (bin_count events m s <= M)%Z) /\
  (exists m, In m (bins events) /\ bin_count events m s = M).
Proof.
  intros Hj s M.
  assert (In s (map ex_set events)) as Hs by (apply in_columns, nth_In, Hj).
  apply in_map_iff in Hs. destruct Hs as [e [Es He]].
  destruct (bins_cover events e He) as [m0 [Hm0 Em0]].
  assert (rows (quake_sum events) <> []) as Hne.
  { rewrite rows_quake_sum. destruct (bins events); [contradiction|discriminate]. }
  destruct (max_axis0_spec (quake_sum events)
              (length (columns (quake_sum events))) Hne) as [_ Hmax].
  { intros r Hr. apply (quake_sum_row events r Hr). }
  destruct (Hmax j Hj) as [Hle [r [Hr Hr']]].
  assert (forall m, In m (bins events) -> (bin_count events m s <= M)%Z) as Hall.
  { intros m Hm.
    assert (In (m, map (bin_count events m) (columns (quake_sum events)))
               (rows (quake_sum events))) as Hrow.
    { rewrite rows_quake_sum. apply in_map_iff. exists m. auto. }
    specialize (Hle _ Hrow).
    destruct (quake_sum_row events _ Hrow) as [_ [_ Hn]].
    rewrite (Hn j Hj) in Hle. exact Hle. }
  subst s M. split; [|split].
  - pose proof (Hall m0 Hm0) as H0.
    pose proof (bin_count_event events e m0 He Em0) as H1.
    rewrite Es in H1. lia.
  - exact Hall.
  - exists (fst r). destruct (quake_sum_row events r Hr) as [Hb [_ Hn]].
    split; [exact Hb|]. rewrite <- (Hn j Hj). symmetry. exact Hr'.
Qed.

Lemma true_div_pos (a b : Z) :
  (b <> 0)%Z -> true_div a b = Fin (inject_Z a / inject_Z b).
Proof.
  intros Hb. unfold true_div. apply Z.eqb_neq in Hb. rewrite Hb. reflexivity.
Qed.

Lemma ratio_in_unit_interval (a b : Z) :
  (0 <= a <= b)%Z -> (0 < b)%Z ->
  0 <= inject_Z a / inject_Z b /\ inject_Z a / inject_Z b <= 1.
Proof.
  intros Ha Hb.
  assert (0 < inject_Z b) as Hb' by (unfold Qlt; cbn; lia).
  split.
  - apply Qle_shift_div_l; [exact Hb'|]. rewrite Qmult_0_l.
    unfold Qle. cbn. lia.
  - apply Qle_shift_div_r; [exact Hb'|]. rewrite Qmult_1_l.
    rewrite <- Zle_Qle. lia.
Qed.

Lemma ratio_one (b : Z) : (0 < b)%Z -> inject_Z b / inject_Z b == 1.
Proof.
  intros Hb. apply Qmult_inv_r. unfold Qeq. cbn. lia.
Qed.

(** *** Running sums *)

Arguments sum : simpl never.

Lemma sum_cons (x : Z) (c : list Z) : sum (x :: c) = (x + sum c)%Z.
Proof. reflexivity. Qed.

Lemma sum_app (c1 c2 : list Z) : sum (c1 ++ c2) = (sum c1 + sum c2)%Z.
Proof.
  induction c1 as [|x c1 IH]; [reflexivity|].
  cbn [app]. rewrite !sum_cons, IH. lia.
Qed.

Lemma sum_rev (c : list Z) : sum (rev c) = sum c.
Proof.
  induction c as [|x c IH]; [reflexivity|].
  cbn [rev]. rewrite sum_app, !sum_cons, IH. change (sum []) with 0%Z. lia.
Qed.

Lemma running_app (a : Z) (c1 c2 : list Z) :
  running a (c1 ++ c2) = running a c1 ++ running (a + sum c1)%Z c2.
Proof.
  revert a. induction c1 as [|x c1 IH]; intros a.
  - change (sum []) with 0%Z. rewrite Z.add_0_r. reflexivity.
  - cbn [app running]. rewrite IH, sum_cons, Z.add_assoc. reflexivity.
Qed.

(** Running sums over the reversed column, reversed, are the suffix sums. *)
Lemma rev_running (a : Z) (c : list Z) :
  rev (running a (rev c)) = map (Z.add a) (suffix_sums c).
Proof.
  induction c as [|x c IH]; [reflexivity|].
  cbn [rev suffix_sums map].
  rewrite running_app, rev_app_distr. cbn [running rev app].
  rewrite IH, sum_rev. f_equal. lia.
Qed.

Lemma length_suffix_sums (c : list Z) : length (suffix_sums c) = length c.
Proof. induction c; cbn; auto. Qed.

Lemma nth_suffix_sums (c : list Z) (i : nat) :
  nth i (suffix_sums c) 0%Z = sum (skipn i c).
Proof.
  revert i. induction c as [|x c IH]; intros [|i]; cbn; auto.
Qed.

Lemma sum_nonneg (c : list Z) : Forall (fun x => (0 <= x)%Z) c -> (0 <= sum c)%Z.
Proof.
  induction 1 as [|x c Hx Hc IH]; [reflexivity|]. rewrite sum_cons. lia.
Qed.

Lemma sum_skipn_le (c : list Z) (i : nat) :
  Forall (fun x => (0 <= x)%Z) c -> (0 <= sum (skipn i c) <= sum c)%Z.
Proof.
  intros H. revert i.
  induction H as [|x c Hx Hc IH]; intros [|i]; cbn [skipn];
    rewrite ?sum_cons; change (sum []) with 0%Z; try lia.
  - pose proof (sum_nonneg c Hc). lia.
  - specialize (IH i). lia.
Qed.

(** *** The cumulative table *)

Lemma map_fst_cumsum_rows (acc : list Z) (rs : list (Q * list Z)) :
  map fst (cumsum_rows acc rs) = map fst rs.
Proof.
  revert acc. induction rs as [|r rs IH]; intros acc; cbn; auto.
  f_equal. apply IH.
Qed.

Lemma cumsum_rows_width (acc : list Z) (rs : list (Q * list Z)) (n : nat) :
  length acc = n ->
  (forall r, In r rs -> length (snd r) = n) ->
  forall r, In r (cumsum_rows acc rs) -> length (snd r) = n.
Proof.
  revert acc. induction rs as [|r0 rs IH]; intros acc Hacc Hrs r; cbn;
    [tauto|].
  assert (length (zip_with Z.add acc (snd r0)) = n) as Hz.
  { rewrite length_zip_with, Hacc, (Hrs r0) by (now left). lia. }
  intros [E|H].
  - subst r. exact Hz.
  - eapply IH; [exact Hz| |exact H]. intros r' Hr'. apply Hrs. now right.
Qed.

Lemma col_cons (j : nat) (r : Q * list Z) (rs : list (Q * list Z)) :
  col j (r :: rs) = nth j (snd r) 0%Z :: col j rs.
Proof. reflexivity. Qed.

Lemma col_cumsum_rows (j : nat) (acc : list Z) (rs : list (Q * list Z)) :
  (j < length acc)%nat ->
  (forall r, In r rs -> length (snd r) = length acc) ->
  col j (cumsum_rows acc rs) = running (nth j acc 0%Z) (col j rs).
Proof.
  revert acc. induction rs as [|r rs IH]; intros acc Hj Hrs; [reflexivity|].
  assert (length (snd r) = length acc) as Hr by (apply Hrs; now left).
  assert (length (zip_with Z.add acc (snd r)) = length acc) as Hz
    by (rewrite length_zip_with; lia).
  cbn [cumsum_rows]. rewrite !col_cons. cbn [snd running].
  rewrite IH.
  - rewrite (nth_zip_with _ _ _ Z.add acc (snd r) j 0%Z 0%Z 0%Z) by lia.
    reflexivity.
  - lia.
  - intros r' Hr'. rewrite Hz. apply Hrs. now right.
Qed.

(** *** Sorting rows whose labels are in descending order *)

Lemma insert_row_last (V : Type) (r : Q * list V) (l : list (Q * list V)) :
  Forall (fun k => k < fst r) (map fst l) -> insert_row r l = l ++ [r].
Proof.
  induction l as [|r' l IH]; cbn; intros H; auto.
  inversion H as [|? ? Hr' Hl]; subst.
  rewrite IH by exact Hl.
  destruct (Qle_bool (fst r) (fst r')) eqn:E; [|reflexivity].
  apply Qle_bool_iff in E. exfalso. apply (Qlt_not_le _ _ Hr'), E.
Qed.

Lemma sort_descending (V : Type) (l : list (Q * list V)) :
  StronglySorted (fun a b => b < a) (map fst l) ->
  fold_right insert_row [] l = rev l.
Proof.
  induction l as [|r l IH]; cbn; intros H; auto.
  inversion H as [|? ? Hs Hall]; subst.
  rewrite IH by exact Hs. apply insert_row_last.
  rewrite map_rev. apply Forall_rev. exact Hall.
Qed.

Lemma StronglySorted_rev (A : Type) (R : A -> A -> Prop) (l : list A) :
  StronglySorted R l -> StronglySorted (fun a b => R b a) (rev l).
Proof.
  induction 1 as [|x l Hs IH Hall]; cbn; [constructor|].
  revert IH. generalize (Forall_rev Hall). generalize (rev l) as l'.
  clear. induction l' as [|y l' IH]; cbn; intros Hall Hs.
  - repeat constructor.
  - inversion Hall; subst. inversion Hs; subst.
    constructor; [apply IH; assumption|].
    apply Forall_app. split; [assumption|]. repeat constructor. assumption.
Qed.

Lemma index_quake_sum (events : list event) :
  map fst (rows (quake_sum events)) = bins events.
Proof. rewrite rows_quake_sum, map_map. cbn. apply map_id. Qed.

Lemma length_rows_quake_sum (events : list event) :
  length (rows (quake_sum events)) = length (bins events).
Proof. rewrite rows_quake_sum. apply length_map. Qed.

(** After the reversal, the running sums and the sort, the rows are back in
    the order of the pivot table. *)
Lemma rows_quake_cumsum (events : list event) :
  rows (quake_cumsum events) =
  rev (cumsum_rows (map (fun _ => 0%Z) (columns (quake_sum events)))
                   (rev (rows (quake_sum events)))).
Proof.
  unfold quake_cumsum, sort_values_mag, cumsum, reversed. cbn [rows columns].
  apply sort_descending.
  rewrite map_fst_cumsum_rows, map_rev, index_quake_sum.
  apply StronglySorted_rev, bins_sorted.
Qed.

Lemma index_quake_cumsum (events : list event) :
  map fst (rows (quake_cumsum events)) = bins events.
Proof.
  rewrite rows_quake_cumsum, map_rev, map_fst_cumsum_rows, map_rev,
    rev_involutive.
  apply index_quake_sum.
Qed.

Lemma length_rows_quake_cumsum (events : list event) :
  length (rows (quake_cumsum events)) = length (bins events).
Proof. rewrite <- index_quake_cumsum. symmetry. apply length_map. Qed.

Lemma quake_cumsum_width (events : list event) (r : Q * list Z) :
  In r (rows (quake_cumsum events)) ->
  length (snd r) = length (columns (quake_sum events)).
Proof.
  rewrite rows_quake_cumsum. intros H. apply in_rev in H.
  eapply cumsum_rows_width; [| |exact H].
  - apply length_map.
  - intros r' Hr'. apply in_rev in Hr'. apply (quake_sum_row events r' Hr').
Qed.

Lemma nth_zeros (A : Type) (l : list A) (j : nat) :
  nth j (map (fun _ => 0%Z) l) 0%Z = 0%Z.
Proof.
  revert j. induction l as [|x l IH]; intros [|j]; cbn; auto.
Qed.

(** A column of the cumulative table holds the suffix sums of the column of
    the pivot table. *)
Lemma col_quake_cumsum (events : list event) (j : nat) :
  (j < length (columns (quake_sum events)))%nat ->
  col j (rows (quake_cumsum events)) =
  suffix_sums
    (map (fun m => bin_count events m (nth j (columns (quake_sum events)) 0%Z))
         (bins events)).
Proof.
  intros Hj. rewrite rows_quake_cumsum. unfold col at 1. rewrite map_rev.
  fold (col j
          (cumsum_rows (map (fun _ => 0%Z) (columns (quake_sum events)))
                       (rev (rows (quake_sum events))))).
  rewrite col_cumsum_rows.
  - rewrite nth_zeros. unfold col at 1. rewrite map_rev.
    fold (col j (rows (quake_sum events))).
    rewrite rev_running, col_quake_sum by exact Hj.
    rewrite map_ext with (g := fun x => x) by (intros; lia).
    apply map_id.
  - rewrite length_map. exact Hj.
  - intros r Hr. apply in_rev in Hr. rewrite length_map.
    apply (quake_sum_row events r Hr).
Qed.

(** *** Bin counts add up to the size of the set *)

Lemma sum_map_zero (A : Type) (l : list A) : sum (map (fun _ => 0%Z) l) = 0%Z.
Proof.
  induction l as [|x l IH]; [reflexivity|].
  cbn [map]. rewrite sum_cons, IH. reflexivity.
Qed.

Lemma sum_map_add (A : Type) (f g : A -> Z) (l : list A) :
  sum (map (fun x => (f x + g x)%Z) l) = (sum (map f l) + sum (map g l))%Z.
Proof.
  induction l as [|x l IH]; [reflexivity|].
  cbn [map]. rewrite !sum_cons, IH. lia.
Qed.

(** A magnitude falls in exactly one of the bins. *)
Lemma one_bin (k : Q) (idx : list Q) :
  StronglySorted Qlt idx ->
  (exists m, In m idx /\ k == m) ->
  sum (map (fun m => if Qeq_bool k m then 1%Z else 0%Z) idx) = 1%Z.
Proof.
  induction 1 as [|x l Hs IH Hall]; intros [m [Hm Ek]]; [contradiction|].
  cbn [map]. rewrite sum_cons.
  destruct (Qeq_bool k x) eqn:E.
  - apply Qeq_bool_iff in E.
    rewrite map_ext_in with (g := fun _ => 0%Z).
    + rewrite sum_map_zero. reflexivity.
    + intros y Hy. rewrite Forall_forall in Hall. specialize (Hall y Hy).
      destruct (Qeq_bool k y) eqn:E'; [|reflexivity].
      apply Qeq_bool_iff in E'. rewrite <- E, E' in Hall.
      exfalso. apply (Qlt_irrefl _ Hall).
  - rewrite IH; [reflexivity|].
    destruct Hm as [Hm|Hm].
    + subst m. apply Qeq_bool_neq in E. contradiction.
    + exists m. auto.
Qed.

Lemma count_partition (t : list mag_row) (idx : list Q) (s : Z) :
  StronglySorted Qlt idx ->
  (forall r, In r t -> exists m, In m idx /\ mr_mag r == m) ->
  sum (map (fun m => count_depth t m s) idx) =
  Z.of_nat (length (filter (fun r => (mr_ex_set r =? s)%Z) t)).
Proof.
  intros Hs. induction t as [|r t IH]; intros Hcov.
  - apply sum_map_zero.
  - rewrite map_ext with
      (g := fun m => ((if Qeq_bool (mr_mag r) m && (mr_ex_set r =? s)%Z
                       then 1 else 0) + count_depth t m s)%Z).
    + rewrite sum_map_add, IH by (intros r' Hr'; apply Hcov; now right).
      cbn [filter]. destruct (mr_ex_set r =? s)%Z.
      * rewrite map_ext with (g := fun m => if Qeq_bool (mr_mag r) m
                                             then 1%Z else 0%Z)
          by (intros; rewrite andb_true_r; reflexivity).
        rewrite one_bin by (auto; apply Hcov; now left).
        cbn [length]. lia.
      * rewrite map_ext with (g := fun _ => 0%Z)
          by (intros; rewrite andb_false_r; reflexivity).
        rewrite sum_map_zero. lia.
    + intros m. unfold count_depth. cbn [filter].
      destruct (Qeq_bool (mr_mag r) m && (mr_ex_set r =? s)%Z); cbn [length];
        lia.
Qed.

Lemma bin_counts_total (events : list event) (s : Z) :
  sum (map (fun m => bin_count events m s) (bins events)) = set_count events s.
Proof.
  unfold bin_count. rewrite count_partition.
  - unfold set_count, events_mags. f_equal.
    induction events as [|e events IH]; [reflexivity|].
    cbn [map filter mr_ex_set]. destruct (ex_set e =? s)%Z; cbn [length]; lia.
  - apply bins_sorted.
  - intros r Hr. unfold events_mags in Hr. apply in_map_iff in Hr.
    destruct Hr as [e [E He]]. subst r. cbn [mr_mag].
    apply bins_cover, He.
Qed.

(** In an ascending list the labels at or above the label of position [i]
    are those from position [i] on. *)
Lemma filter_from (l : list Q) (i : nat) (d : Q) :
  StronglySorted Qlt l -> (i < length l)%nat ->
  filter (fun m' => Qle_bool (nth i l d) m') l = skipn i l.
Proof.
  intros Hs. revert i. induction Hs as [|x l Hs IH Hall]; intros i Hi;
    [cbn in Hi; lia|].
  rewrite Forall_forall in Hall. destruct i as [|i]; cbn [nth filter skipn].
  - replace (Qle_bool x x) with true
      by (symmetry; apply Qle_bool_iff, Qle_refl).
    f_equal. apply forallb_filter_id. apply forallb_forall.
    intros y Hy. apply Qle_bool_iff, Qlt_le_weak, Hall, Hy.
  - cbn [length] in Hi.
    replace (Qle_bool (nth i l d) x) with false; [apply IH; lia|].
    symmetry. apply not_true_iff_false. intros H. apply Qle_bool_iff in H.
    apply (Qlt_not_le x (nth i l d)); [|exact H].
    apply Hall, nth_In. lia.
Qed.

Lemma reverse_cumulative_position (events : list event) (i : nat) (s : Z) :
  (i < length (bins events))%nat ->
  reverse_cumulative events (nth i (bins events) 0) s =
  nth i (suffix_sums (map (fun m => bin_count events m s) (bins events))) 0%Z.
Proof.
  intros Hi. unfold reverse_cumulative.
  rewrite filter_from by (auto; apply bins_sorted).
  rewrite nth_suffix_sums, skipn_map. reflexivity.
Qed.

(** The maximum of a column of the cumulative table is the size of the
    set. *)
Lemma cumsum_column_max (events : list event) (j : nat) :
  (j < length (columns (quake_sum events)))%nat ->
  nth j (max_axis0 (quake_cumsum events)) 0%Z
  = set_count events (nth j (columns (quake_sum events)) 0%Z).
Proof.
  intros Hj.
  set (s := nth j (columns (quake_sum events)) 0%Z).
  set (c := map (fun m => bin_count events m s) (bins events)).
  assert (Forall (fun x => (0 <= x)%Z) c) as Hc.
  { apply Forall_forall. intros x Hx. apply in_map_iff in Hx.
    destruct Hx as [m [E _]]. subst x. apply bin_count_nonneg. }
  assert (bins events <> []) as Hb.
  { destruct (column_max events j Hj) as [_ [_ [m [Hm _]]]].
    destruct (bins events); [contradiction|discriminate]. }
  assert (rows (quake_cumsum events) <> []) as Hne.
  { intros E. apply (f_equal (@length _)) in E.
    rewrite length_rows_quake_cumsum in E. destruct (bins events);
      [contradiction|discriminate]. }
  destruct (max_axis0_spec (quake_cumsum events)
              (length (columns (quake_sum events))) Hne
              (quake_cumsum_width events)) as [_ Hmax].
  destruct (Hmax j Hj) as [Hle [r [Hr HM]]].
  rewrite <- bin_counts_total. fold s. fold c.
  assert (forall x, In x (suffix_sums c) ->
                    exists r, In r (rows (quake_cumsum events)) /\
                              x = nth j (snd r) 0%Z) as Hcol.
  { intros x Hx. unfold c, s in Hx. rewrite <- col_quake_cumsum in Hx by exact Hj.
    apply in_map_iff in Hx. destruct Hx as [r' [E Hr']]. exists r'. auto. }
  apply Z.le_antisymm.
  - rewrite HM.
    assert (In (nth j (snd r) 0%Z) (suffix_sums c)) as Hin.
    { unfold c, s. rewrite <- col_quake_cumsum by exact Hj.
      apply in_map_iff. exists r. auto. }
    apply In_nth with (d := 0%Z) in Hin. destruct Hin as [i [_ Ei]].
    rewrite <- Ei, nth_suffix_sums. apply sum_skipn_le, Hc.
  - destruct (Hcol (sum c)) as [r' [Hr' E]].
    + destruct c as [|x c'] eqn:Ec.
      * unfold c in Ec. destruct (bins events); [contradiction|discriminate].
      * left. reflexivity.
    + rewrite E. apply Hle, Hr'.
Qed.

(** *** The long table [events_sum] *)

Lemma events_sum_ok (events : list event) :
  events_sum events =
  Ok (flat_map
        (fun j =>
           zip_with
             (fun r1 r2 =>
                mkFmRow (nth j (columns (quake_sum events)) 0%Z) (fst r1)
                        (nth j (snd r1) NaN) (nth j (snd r2) NaN))
             (rows (quake_sum_div events)) (rows (quake_cumsum_norm events)))
        (seq 0 (length (columns (quake_sum events))))).
Proof.
  assert (length (rows (quake_sum_div events))
          = length (rows (quake_cumsum_norm events))) as Hlen.
  { unfold quake_sum_div, quake_cumsum_norm, div_axis1. cbn [rows].
    rewrite !length_map, length_rows_quake_sum, length_rows_quake_cumsum.
    reflexivity. }
  unfold events_sum. rewrite !length_unstack.
  change (columns (quake_cumsum_norm events))
    with (columns (quake_sum_div events)).
  rewrite Hlen, Nat.eqb_refl. f_equal. unfold unstack.
  change (columns (quake_cumsum_norm events))
    with (columns (quake_sum events)).
  change (columns (quake_sum_div events)) with (columns (quake_sum events)).
  rewrite zip_with_flat_map by (intros; rewrite !length_map; exact Hlen).
  apply flat_map_ext. intros j. rewrite zip_with_map. reflexivity.
Qed.

Lemma length_max_axis0_quake_sum (events : list event) :
  bins events <> [] ->
  length (max_axis0 (quake_sum events)) = length (columns (quake_sum events)).
Proof.
  intros Hb. apply max_axis0_spec.
  - rewrite rows_quake_sum. destruct (bins events); [contradiction|discriminate].
  - intros r Hr. apply (quake_sum_row events r Hr).
Qed.

Lemma length_max_axis0_quake_cumsum (events : list event) :
  bins events <> [] ->
  length (max_axis0 (quake_cumsum events)) = length (columns (quake_sum events)).
Proof.
  intros Hb. apply max_axis0_spec.
  - intros E. apply (f_equal (@length _)) in E.
    rewrite length_rows_quake_cumsum in E.
    destruct (bins events); [contradiction|discriminate].
  - apply quake_cumsum_width.
Qed.

Lemma events_sum_rows (events : list event) (r : fm_row) :
  In r (flat_map
          (fun j =>
             zip_with
               (fun r1 r2 =>
                  mkFmRow (nth j (columns (quake_sum events)) 0%Z) (fst r1)
                          (nth j (snd r1) NaN) (nth j (snd r2) NaN))
               (rows (quake_sum_div events)) (rows (quake_cumsum_norm events)))
          (seq 0 (length (columns (quake_sum events))))) <->
  exists j i, (j < length (columns (quake_sum events)))%nat /\
              (i < length (bins events))%nat /\
              r = cell_row events j i.
Proof.
  set (d1 := (0, @nil (np_float Q))). set (d2 := (0, @nil (np_float Q))).
  assert (forall j i,
    (j < length (columns (quake_sum events)))%nat ->
    (i < length (bins events))%nat ->
    mkFmRow (nth j (columns (quake_sum events)) 0%Z)
            (fst (nth i (rows (quake_sum_div events)) d1))
            (nth j (snd (nth i (rows (quake_sum_div events)) d1)) NaN)
            (nth j (snd (nth i (rows (quake_cumsum_norm events)) d2)) NaN)
    = cell_row events j i) as Hcell.
  { intros j i Hj Hi.
    assert (bins events <> []) as Hb
      by (destruct (bins events); [cbn in Hi; lia | discriminate]).
    unfold quake_sum_div, quake_cumsum_norm, div_axis1. cbn [rows].
    set (g1 := fun r0 : Q * list Z =>
                 (fst r0, zip_with true_div (snd r0)
                                   (max_axis0 (quake_sum events)))).
    set (g2 := fun r0 : Q * list Z =>
                 (fst r0, zip_with true_div (snd r0)
                                   (max_axis0 (quake_cumsum events)))).
    set (d0 := (0, @nil Z)).
    change d1 with (g1 d0). change d2 with (g2 d0). rewrite !map_nth.
    assert (In (nth i (rows (quake_sum events)) d0) (rows (quake_sum events)))
      as Hr1 by (apply nth_In; rewrite length_rows_quake_sum; exact Hi).
    assert (In (nth i (rows (quake_cumsum events)) d0)
               (rows (quake_cumsum events)))
      as Hr2 by (apply nth_In; rewrite length_rows_quake_cumsum; exact Hi).
    destruct (quake_sum_row events _ Hr1) as [_ [Hw1 Hn1]].
    pose proof (quake_cumsum_width events _ Hr2) as Hw2.
    assert (fst (nth i (rows (quake_sum events)) d0) = nth i (bins events) 0)
      as Hm.
    { rewrite <- index_quake_sum. symmetry. apply (map_nth fst _ d0). }
    unfold g1, g2. cbn [fst snd].
    rewrite (nth_zip_with _ _ _ true_div _ _ j 0%Z 0%Z NaN)
      by (rewrite ?length_max_axis0_quake_sum by exact Hb; lia).
    rewrite (nth_zip_with _ _ _ true_div _ _ j 0%Z 0%Z NaN)
      by (rewrite ?length_max_axis0_quake_cumsum by exact Hb; lia).
    rewrite (Hn1 j Hj), Hm, cumsum_column_max by exact Hj.
    unfold cell_row. f_equal. f_equal.
    rewrite reverse_cumulative_position by exact Hi.
    rewrite <- col_quake_cumsum by exact Hj.
    unfold col.
    rewrite (nth_indep (map (fun r0 => nth j (snd r0) 0%Z)
                            (rows (quake_cumsum events)))
                       0%Z (nth j (snd d0) 0%Z))
      by (rewrite length_map, length_rows_quake_cumsum; exact Hi).
    rewrite (map_nth (fun r0 => nth j (snd r0) 0%Z)). reflexivity. }
  assert (length (rows (quake_sum_div events)) = length (bins events)) as L1.
  { unfold quake_sum_div, div_axis1. cbn [rows].
    rewrite length_map. apply length_rows_quake_sum. }
  assert (length (rows (quake_cumsum_norm events)) = length (bins events)) as L2.
  { unfold quake_cumsum_norm, div_axis1. cbn [rows].
    rewrite length_map. apply length_rows_quake_cumsum. }
  rewrite in_flat_map. split.
  - intros [j [Hj H]]. apply in_seq in Hj.
    apply (in_zip_with _ _ _ _ _ _ _ d1 d2) in H.
    destruct H as [i [H1 [H2 E]]]. exists j, i.
    split; [lia|]. split; [lia|]. rewrite E. apply Hcell; lia.
  - intros [j [i [Hj [Hi E]]]]. exists j. split; [apply in_seq; lia|].
    apply (in_zip_with _ _ _ _ _ _ _ d1 d2). exists i.
    split; [lia|]. split; [lia|]. rewrite E. symmetry. apply Hcell; lia.
Qed.

Lemma events_sum_table (events : list event) :
  exists table,
    events_sum events = Ok table /\
    forall r, In r table <->
              exists j i, (j < length (columns (quake_sum events)))%nat /\
                          (i < length (bins events))%nat /\
                          r = cell_row events j i.
Proof.
  eexists. split; [apply events_sum_ok|]. apply events_sum_rows.
Qed.

(** The maximum of the column of a set depends on the set alone. *)
Lemma column_max_of_set (events : list event) (j j' : nat) :
  (j < length (columns (quake_sum events)))%nat ->
  (j' < length (columns (quake_sum events)))%nat ->
  nth j (columns (quake_sum events)) 0%Z
  = nth j' (columns (quake_sum events)) 0%Z ->
  nth j (max_axis0 (quake_sum events)) 0%Z
  = nth j' (max_axis0 (quake_sum events)) 0%Z.
Proof.
  intros Hj Hj' E.
  destruct (column_max events j Hj) as [_ [H1 [m [Hm Em]]]].
  destruct (column_max events j' Hj') as [_ [H1' [m' [Hm' Em']]]].
  rewrite E in *. apply Z.le_antisymm.
  - rewrite <- Em. apply H1', Hm.
  - rewrite <- Em'. apply H1, Hm'.
Qed.

Lemma set_count_pos (events : list event) (s : Z) :
  In s (map ex_set events) -> (0 < set_count events s)%Z.
Proof.
  intros H. apply in_map_iff in H. destruct H as [e [E He]].
  unfold set_count.
  assert (1 <= length (filter (fun e0 => (ex_set e0 =? s)%Z) events))%nat;
    [|lia].
  apply length_filter_pos with (x := e); [exact He|]. apply Z.eqb_eq, E.
Qed.

Lemma sum_filter_mono (A : Type) (f : A -> Z) (p1 p2 : A -> bool)
      (l : list A) :
  (forall x, p2 x = true -> p1 x = true) ->
  (forall x, (0 <= f x)%Z) ->
  (0 <= sum (map f (filter p2 l)) <= sum (map f (filter p1 l)))%Z.
Proof.
  intros Hp Hf. induction l as [|x l IH]; [cbn; change (sum []) with 0%Z; lia|].
  cbn [filter]. specialize (Hp x). specialize (Hf x).
  destruct (p2 x); [rewrite Hp by reflexivity|destruct (p1 x)];
    cbn [map]; rewrite ?sum_cons; lia.
Qed.

(** The reverse cumulative count does not grow with the magnitude. *)
Lemma reverse_cumulative_mono (events : list event) (m1 m2 : Q) (s : Z) :
  m1 <= m2 ->
  (0 <= reverse_cumulative events m2 s <= reverse_cumulative events m1 s)%Z.
Proof.
  intros H. unfold reverse_cumulative. apply sum_filter_mono.
  - intros x Hx. apply Qle_bool_iff in Hx. apply Qle_bool_iff.
    eapply Qle_trans; eassumption.
  - intros x. apply bin_count_nonneg.
Qed.

Lemma reverse_cumulative_first (events : list event) (s : Z) :
  bins events <> [] ->
  reverse_cumulative events (nth 0 (bins events) 0) s = set_count events s.
Proof.
  intros Hb. rewrite reverse_cumulative_position
    by (destruct (bins events); [contradiction | cbn; lia]).
  rewrite nth_suffix_sums. cbn [skipn]. apply bin_counts_total.
Qed.

Lemma first_bin_least (events : list event) (i : nat) :
  (i < length (bins events))%nat ->
  nth 0 (bins events) 0 <= nth i (bins events) 0.
Proof.
  pose proof (bins_sorted events) as Hs. intros Hi.
  destruct Hs as [|x l Hs Hall]; [cbn in Hi; lia|].
  destruct i as [|i]; cbn [nth]; [apply Qle_refl|].
  apply Qlt_le_weak. rewrite Forall_forall in Hall. apply Hall, nth_In.
  cbn in Hi. lia.
Qed.

Lemma ratio_mono (a1 a2 b : Z) :
  (a2 <= a1)%Z -> (0 < b)%Z ->
  inject_Z a2 / inject_Z b <= inject_Z a1 / inject_Z b.
Proof.
  intros Ha Hb. unfold Qdiv. apply Qmult_le_compat_r.
  - rewrite <- Zle_Qle. exact Ha.
  - apply Qinv_le_0_compat. unfold Qle. cbn. lia.
Qed.

(** *** The two normalized series of a set *)

(** C7. For a set with at least one event, [events_sum] is built without
    an exception; with [M] the largest bin count of the set, every bin has a
    row for the set, the normalized count of a row is its bin count divided
    by [M], a number from 0 to 1, and it is 1 for a bin whose count is
    [M]. *)
Theorem C7_normalized_counts_in_unit_interval (events : list event) (s : Z) :
  In s (map ex_set events) ->
  exists table M,
    events_sum events = Ok table /\
    (0 < M)%Z /\
    (forall m, In m (bins events) -> (bin_count events m s <= M)%Z) /\
    (exists m, In m (bins events) /\ bin_count events m s = M) /\
    (forall m, In m (bins events) ->
       exists r, In r table /\ fm_ex_set r = s /\ fm_mag r = m) /\
    (forall r, In r table -> fm_ex_set r = s ->
       In (fm_mag r) (bins events) /\
       counts r
       = Fin (inject_Z (bin_count events (fm_mag r) s) / inject_Z M) /\
       0 <= inject_Z (bin_count events (fm_mag r) s) / inject_Z M /\
       inject_Z (bin_count events (fm_mag r) s) / inject_Z M <= 1) /\
    (forall r, In r table -> fm_ex_set r = s ->
       bin_count events (fm_mag r) s = M ->
       exists q, counts r = Fin q /\ q == 1).
Proof.
  intros Hs.
  destruct (column_of_set events s Hs) as [j [Hj Ej]].
  destruct (events_sum_table events) as [table [Hok Hrows]].
  pose proof (column_max events j Hj) as Hmax. cbv zeta in Hmax.
  rewrite Ej in Hmax. destruct Hmax as [Hpos [Hle Hex]].
  exists table, (nth j (max_axis0 (quake_sum events)) 0%Z).
  assert (forall r, In r table -> fm_ex_set r = s ->
            In (fm_mag r) (bins events) /\
            counts r
            = Fin (inject_Z (bin_count events (fm_mag r) s)
                   / inject_Z (nth j (max_axis0 (quake_sum events)) 0%Z)))
    as Hrow.
  { intros r Hr Er. apply Hrows in Hr. destruct Hr as [j' [i [Hj' [Hi E]]]].
    subst r. cbn [cell_row fm_ex_set fm_mag counts] in *.
    split; [apply nth_In, Hi|].
    rewrite Er, <- (column_max_of_set events j j' Hj Hj') by congruence.
    apply true_div_pos. lia. }
  repeat split; auto.
  - intros m Hm. apply In_nth with (d := 0) in Hm. destruct Hm as [i [Hi Em]].
    exists (cell_row events j i). split; [|split].
    + apply Hrows. exists j, i. auto.
    + exact Ej.
    + exact Em.
  - apply (Hrow r); assumption.
  - apply (Hrow r); assumption.
  - apply ratio_in_unit_interval; [|exact Hpos].
    split; [apply bin_count_nonneg|]. apply Hle, (Hrow r); assumption.
  - apply ratio_in_unit_interval; [|exact Hpos].
    split; [apply bin_count_nonneg|]. apply Hle, (Hrow r); assumption.
  - intros r Hr Er EM. destruct (Hrow r Hr Er) as [_ Hc].
    eexists. split; [exact Hc|]. rewrite EM. apply ratio_one, Hpos.
Qed.

(** C8. For a set with at least one event, the normalized cumulative count
    of a row of the set is the number of its events in that bin and in the
    bins of larger magnitude, divided by the number of events of the set; it
    does not increase with the magnitude, and it is 1 at the smallest
    bin. *)
Theorem C8_cumulative_counts_non_increasing (events : list event) (s : Z) :
  In s (map ex_set events) ->
  exists table,
    events_sum events = Ok table /\
    (0 < set_count events s)%Z /\
    (forall r, In r table -> fm_ex_set r = s ->
       cs_counts r
       = Fin (inject_Z (reverse_cumulative events (fm_mag r) s)
              / inject_Z (set_count events s))) /\
    (forall r1 r2 q1 q2,
       In r1 table -> In r2 table -> fm_ex_set r1 = s -> fm_ex_set r2 = s ->
       fm_mag r1 <= fm_mag r2 ->
       cs_counts r1 = Fin q1 -> cs_counts r2 = Fin q2 -> q2 <= q1) /\
    (exists r,
       In r table /\ fm_ex_set r = s /\
       (forall r', In r' table -> fm_mag r <= fm_mag r') /\
       exists q, cs_counts r = Fin q /\ q == 1).
Proof.
  intros Hs.
  destruct (column_of_set events s Hs) as [j [Hj Ej]].
  destruct (events_sum_table events) as [table [Hok Hrows]].
  pose proof (set_count_pos events s Hs) as Hpos.
  assert (forall r, In r table -> fm_ex_set r = s ->
            cs_counts r
            = Fin (inject_Z (reverse_cumulative events (fm_mag r) s)
                   / inject_Z (set_count events s))) as Hrow.
  { intros r Hr Er. apply Hrows in Hr. destruct Hr as [j' [i [Hj' [Hi E]]]].
    subst r. cbn [cell_row fm_ex_set fm_mag cs_counts] in *.
    rewrite Er. apply true_div_pos. lia. }
  assert (bins events <> []) as Hb.
  { destruct (column_max events j Hj) as [_ [_ [m [Hm _]]]].
    destruct (bins events); [contradiction|discriminate]. }
  exists table. split; [exact Hok|]. split; [exact Hpos|].
  split; [exact Hrow|]. split.
  - intros r1 r2 q1 q2 H1 H2 E1 E2 Hm Hq1 Hq2.
    rewrite (Hrow r1 H1 E1) in Hq1. rewrite (Hrow r2 H2 E2) in Hq2.
    inversion Hq1; subst q1. inversion Hq2; subst q2.
    apply ratio_mono; [|exact Hpos].
    apply (reverse_cumulative_mono events _ _ s Hm).
  - assert (0 < length (bins events))%nat as H0
      by (destruct (bins events); [contradiction | cbn; lia]).
    exists (cell_row events j 0). split; [|split; [|split]].
    + apply Hrows. exists j, 0%nat. auto.
    + exact Ej.
    + intros r' Hr'. apply Hrows in Hr'.
      destruct Hr' as [j' [i [_ [Hi E]]]]. subst r'.
      cbn [cell_row fm_mag]. apply first_bin_least, Hi.
    + cbn [cell_row cs_counts]. rewrite Ej.
      rewrite reverse_cumulative_first by exact Hb.
      eexists. split; [apply true_div_pos; lia|]. apply ratio_one, Hpos.
Qed.

Lemma C7_normalized_counts_in_unit_interval_witness :
  In 1%Z (map ex_set Samples.events4) /\
  exists table,
    events_sum Samples.events4 = Ok table /\
    (forall r, In r table -> fm_ex_set r = 1%Z ->
       exists q, counts r = Fin q /\ 0 <= q /\ q <= 1) /\
    (exists r q, In r table /\ fm_ex_set r = 1%Z /\ counts r = Fin q /\ q == 1).
Proof.
  assert (In 1%Z (map ex_set Samples.events4)) as H by (simpl; auto).
  split; [exact H|].
  destruct (C7_normalized_counts_in_unit_interval Samples.events4 1 H)
    as [table [M [Hok [_ [_ [[m [Hm EM]] [Hbin [Hrow Hone]]]]]]]].
  exists table. split; [exact Hok|]. split.
  - intros r Hr Er. destruct (Hrow r Hr Er) as [_ [Hc [H0 H1]]].
    eexists. split; [exact Hc|]. split; assumption.
  - destruct (Hbin m Hm) as [r [Hr [Er Em]]].
    destruct (Hone r Hr Er) as [q [Hq Hq1]]; [rewrite Em; exact EM|].
    exists r, q. repeat split; assumption.
Defined.

Lemma C8_cumulative_counts_non_increasing_witness :
  In 1%Z (map ex_set Samples.events4) /\
  exists table,
    events_sum Samples.events4 = Ok table /\
    (forall r1 r2 q1 q2,
       In r1 table -> In r2 table ->
       fm_ex_set r1 = 1%Z -> fm_ex_set r2 = 1%Z ->
       fm_mag r1 <= fm_mag r2 ->
       cs_counts r1 = Fin q1 -> cs_counts r2 = Fin q2 -> q2 <= q1) /\
    (exists r q,
       In r table /\ fm_ex_set r = 1%Z /\
       (forall r', In r' table -> fm_mag r <= fm_mag r') /\
       cs_counts r = Fin q /\ q == 1).
Proof.
  assert (In 1%Z (map ex_set Samples.events4)) as H by (simpl; auto).
  split; [exact H|].
  destruct (C8_cumulative_counts_non_increasing Samples.events4 1 H)
    as [table [Hok [_ [_ [Hmono [r [Hr [Er [Hleast [q [Hq Hq1]]]]]]]]]]].
  exists table. split; [exact Hok|]. split; [exact Hmono|].
  exists r, q. repeat split; assumption.
Defined.

End FreqMagFacts.


(** ** More on the explosion sets *)

Module PartitionMore.

Import Partition PartitionFacts.

Lemma last_item_nil_iff (A : Type) (l : list A) :
  last_item l = Raise IndexError <-> l = [].
Proof.
  split.
  - destruct l as [|x l]; [reflexivity|].
    rewrite (last_item_cons _ x x l). discriminate.
  - intros E. subst l. reflexivity.
Qed.

Lemma assign_sets_index_error (starts ends : list Z) (quakes : list quake) :
  assign_sets starts ends quakes = Raise IndexError <-> ends = [].
Proof.
  unfold assign_sets. rewrite fold_loop_body.
  destruct ends as [|y ends].
  - cbn. tauto.
  - rewrite (last_item_cons _ y y ends). cbn [bind].
    split; discriminate.
Qed.

Lemma length_end_times (explode : list Z) :
  length (end_times explode) = (length explode - 13)%nat.
Proof. unfold end_times, slice_from. apply length_skipn. Qed.

Lemma length_start_times (explode : list Z) :
  length (start_times explode) = (length explode - 13)%nat.
Proof.
  unfold start_times, slice_from_to_last.
  rewrite length_firstn, length_skipn. lia.
Qed.

(** With thirteen explosions or fewer cell 4 stops on [end_times[-1]]. *)
Theorem group_earthquakes_index_error (explode : list Z) (quakes : list quake) :
  group_earthquakes explode quakes = Raise IndexError <->
  (length explode <= 13)%nat.
Proof.
  unfold group_earthquakes. rewrite assign_sets_index_error.
  pose proof (length_end_times explode) as H. split.
  - intros E. rewrite E in H. cbn in H. lia.
  - intros L. destruct (end_times explode); [reflexivity|]. cbn in H. lia.
Qed.

(** With fourteen explosions or more cell 4 returns the quakes, each with
    one set number, in the order in which they came. *)
Theorem group_earthquakes_keeps_rows (explode : list Z) (quakes : list quake) :
  (14 <= length explode)%nat ->
  exists events,
    group_earthquakes explode quakes = Ok events /\
    map row events = quakes.
Proof.
  intros L. unfold group_earthquakes.
  destruct (end_times explode) as [|y ends] eqn:E.
  - pose proof (length_end_times explode) as H. rewrite E in H. cbn in H. lia.
  - rewrite assign_sets_final_set with (last_end := last (y :: ends) y)
      by apply last_item_cons.
    eexists. split; [reflexivity|].
    rewrite map_map. cbn [row]. apply map_id.
Qed.

Lemma group_earthquakes_keeps_rows_witness :
  (14 <= length Samples.explode15)%nat /\
  exists events,
    group_earthquakes Samples.explode15 Samples.quakes5 = Ok events /\
    map row events = Samples.quakes5.
Proof.
  assert (14 <= length Samples.explode15)%nat as H by (simpl; lia).
  split; [exact H|].
  exact (group_earthquakes_keeps_rows Samples.explode15 Samples.quakes5 H).
Defined.

Lemma nth_removelast (A : Type) (l : list A) (n : nat) (d : A) :
  (n < length (removelast l))%nat -> nth n (removelast l) d = nth n l d.
Proof.
  revert n. induction l as [|x [|y l] IH]; intros n Hn; try (cbn in Hn; lia).
  change (removelast (x :: y :: l)) with (x :: removelast (y :: l)) in *.
  destruct n as [|n]; [reflexivity|].
  cbn [nth]. apply IH. cbn [length] in Hn. lia.
Qed.

Lemma nth_tl (A : Type) (l : list A) (n : nat) (d : A) :
  nth n (tl l) d = nth (S n) l d.
Proof. destruct l; [destruct n|]; reflexivity. Qed.

(** The two slices of the explosion times always have the same length, and
    every interval ends where the next one starts. *)
Theorem intervals_chain (explode : list Z) :
  length (start_times explode) = length (end_times explode) /\
  forall (k : nat) (d : Z),
    (S k < length (end_times explode))%nat ->
    nth k (end_times explode) d = nth (S k) (start_times explode) d.
Proof.
  split.
  - rewrite length_start_times, length_end_times. reflexivity.
  - intros k d Hk.
    assert (S k < length (start_times explode))%nat as Hs
      by (rewrite length_start_times, <- length_end_times; exact Hk).
    rewrite start_times_boundaries in *. rewrite end_times_boundaries.
    rewrite nth_removelast by exact Hs. apply nth_tl.
Qed.

Lemma intervals_chain_witness :
  length (start_times Samples.explode15) = length (end_times Samples.explode15)
  /\ (1 < length (end_times Samples.explode15))%nat
  /\ nth 0 (end_times Samples.explode15) 0%Z
     = nth 1 (start_times Samples.explode15) 0%Z.
Proof.
  assert (1 < length (end_times Samples.explode15))%nat as H by (simpl; lia).
  split; [exact (proj1 (intervals_chain Samples.explode15))|].
  split; [exact H|].
  exact (proj2 (intervals_chain Samples.explode15) 0%nat 0%Z H).
Defined.

(** *** The range of the set numbers *)

Lemma loop_set_range (t : Z) (pairs : list (Z * Z)) (i cur : Z) :
  loop_set t pairs i cur = cur \/
  (i <= loop_set t pairs i cur < i + Z.of_nat (length pairs))%Z.
Proof.
  revert i cur. induction pairs as [|[s e] ps IH]; intros i cur; [now left|].
  cbn [loop_set length].
  destruct (IH (i + 1)%Z (if (t >=? s)%Z && (t <? e)%Z then i else cur))
    as [H|H].
  - rewrite H. destruct ((t >=? s)%Z && (t <? e)%Z); [right; lia | now left].
  - right. lia.
Qed.

Lemma final_set_range (t : Z) (pairs : list (Z * Z)) (last_end : Z) :
  (0 <= final_set t pairs last_end <= 1 + Z.of_nat (length pairs))%Z.
Proof.
  unfold final_set. destruct (t >? last_end)%Z; [lia|].
  destruct (loop_set_range t pairs 1 0) as [H|H]; lia.
Qed.

(** Whatever the explosion times are, the set numbers go from 0 to the
    number of intervals plus one. *)
Theorem ex_set_in_range (explode : list Z) (quakes : list quake)
        (events : list event) (e : event) :
  group_earthquakes explode quakes = Ok events ->
  In e events ->
  (0 <= ex_set e <= Z.of_nat (length (end_times explode)) + 1)%Z.
Proof.
  unfold group_earthquakes. intros Hok He.
  destruct (end_times explode) as [|y ends] eqn:E.
  - assert (assign_sets (start_times explode) [] quakes = Raise IndexError)
      as H by (apply assign_sets_index_error; reflexivity).
    rewrite H in Hok. discriminate.
  - rewrite assign_sets_final_set with (last_end := last (y :: ends) y) in Hok
      by apply last_item_cons.
    inversion Hok; subst events. apply in_map_iff in He.
    destruct He as [q [Eq _]]. subst e. cbn [ex_set].
    pose proof (final_set_range (DTtime q)
                  (combine (start_times explode) (y :: ends))
                  (last (y :: ends) y)) as H.
    rewrite length_combine, length_start_times in H.
    pose proof (length_end_times explode) as L. rewrite E in L.
    rewrite <- L in H. rewrite Nat.min_id in H. cbn [last] in H |- *. lia.
Qed.

Lemma ex_set_in_range_witness :
  exists events e,
    group_earthquakes Samples.explode15 Samples.quakes5 = Ok events /\
    In e events /\
    (0 <= ex_set e <= 3)%Z.
Proof.
  eexists. eexists. split; [vm_compute; reflexivity|].
  split; [left; reflexivity|].
  refine (ex_set_in_range Samples.explode15 Samples.quakes5 _ _ _ _);
    [vm_compute; reflexivity | left; reflexivity].
Defined.

(** *** The set number counts the boundaries passed *)

Lemma boundaries_upto_cons (t x : Z) (b : list Z) :
  boundaries_upto t (x :: b)
  = ((if (x <=? t)%Z then 1 else 0) + boundaries_upto t b)%Z.
Proof.
  unfold boundaries_upto. cbn [filter].
  destruct (x <=? t)%Z; cbn [length]; lia.
Qed.

Lemma boundaries_upto_nonneg (t : Z) (b : list Z) :
  (0 <= boundaries_upto t b)%Z.
Proof. unfold boundaries_upto. lia. Qed.

Lemma boundaries_upto_none (t : Z) (b : list Z) :
  Forall (fun x => (t < x)%Z) b -> boundaries_upto t b = 0%Z.
Proof.
  induction 1 as [|x b Hx _ IH]; [reflexivity|].
  rewrite boundaries_upto_cons, IH. mask_cases; reflexivity.
Qed.

Lemma boundaries_upto_all (t : Z) (b : list Z) :
  Forall (fun x => (x <= t)%Z) b -> boundaries_upto t b = Z.of_nat (length b).
Proof.
  induction 1 as [|x b Hx _ IH]; [reflexivity|].
  rewrite boundaries_upto_cons, IH. mask_cases; cbn [length]; lia.
Qed.

Lemma boundaries_upto_mono (t1 t2 : Z) (b : list Z) :
  (t1 <= t2)%Z -> (boundaries_upto t1 b <= boundaries_upto t2 b)%Z.
Proof.
  intros Ht. induction b as [|x b IH]; [reflexivity|].
  rewrite !boundaries_upto_cons. mask_cases; lia.
Qed.

Lemma loop_set_count (t d : Z) (b : list Z) (i cur : Z) :
  StronglySorted Z.le b ->
  (t < last b d)%Z ->
  loop_set t (consecutive b) i cur
  = if (boundaries_upto t b =? 0)%Z then cur
    else (i + boundaries_upto t b - 1)%Z.
Proof.
  intros Hs. revert i cur.
  induction Hs as [|x b Hs IH Hall]; intros i cur Ht; [reflexivity|].
  destruct b as [|y r].
  - cbn [last] in Ht. rewrite boundaries_upto_cons. mask_cases; reflexivity.
  - change (last (x :: y :: r) d) with (last (y :: r) d) in Ht.
    change (consecutive (x :: y :: r)) with ((x, y) :: consecutive (y :: r)).
    cbn [loop_set]. rewrite IH by exact Ht.
    rewrite (boundaries_upto_cons t x).
    pose proof (boundaries_upto_nonneg t (y :: r)) as Hn.
    destruct (Z.lt_ge_cases t y) as [Hy|Hy].
    + rewrite (boundaries_upto_none t (y :: r))
        by (apply StronglySorted_tail_above; assumption).
      mask_cases; cbn; lia.
    + assert (x <= t)%Z as Hx by (apply Forall_inv in Hall; lia).
      assert (1 <= boundaries_upto t (y :: r))%Z as H1.
      { rewrite boundaries_upto_cons.
        pose proof (boundaries_upto_nonneg t r). mask_cases; lia. }
      mask_cases;
        destruct (Z.eqb_spec (boundaries_upto t (y :: r)) 0); try lia;
        destruct (Z.eqb_spec (1 + boundaries_upto t (y :: r)) 0); lia.
Qed.

Section SortedBoundariesMore.

Variables b0 b1 : Z.
Variable rest : list Z.
Let b : list Z := b0 :: b1 :: rest.
Hypothesis b_sorted : StronglySorted Z.le b.

Let last_b : Z := last b b0.

(** Away from the last boundary the set number of a time is the number of
    boundaries at or before it. *)
Lemma final_set_count (t : Z) :
  t <> last_b ->
  final_set t (consecutive b) last_b = boundaries_upto t b.
Proof.
  intros Ht. destruct (Z.lt_ge_cases last_b t) as [H|H].
  - pose proof (final_set_after_last b0 b1 rest t H) as E. cbv zeta in E.
    fold b in E. fold last_b in E. rewrite E.
    symmetry. apply boundaries_upto_all.
    pose proof (boundaries_below_last b0 b1 rest b_sorted) as Hl.
    apply Forall_forall. intros a Ha. rewrite Forall_forall in Hl.
    specialize (Hl a Ha). unfold last_b, b in H. lia.
  - assert (t < last_b)%Z as Hlt by lia.
    unfold final_set. replace (t >? last_b)%Z with false by (mask_cases; auto).
    rewrite (loop_set_count t b0 b 1 0 b_sorted Hlt).
    pose proof (boundaries_upto_nonneg t b).
    destruct (Z.eqb_spec (boundaries_upto t b) 0); lia.
Qed.

(** Set 0 holds the times before the first boundary and the last boundary
    itself. *)
Lemma final_set_zero (t : Z) :
  negb (final_set t (consecutive b) last_b =? 0)%Z
  = (b0 <=? t)%Z && negb (t =? last_b)%Z.
Proof.
  destruct (Z.eqb_spec t last_b) as [E|E].
  - subst t. pose proof (final_set_at_last b0 b1 rest b_sorted) as E0.
    cbv zeta in E0. fold b in E0. fold last_b in E0. rewrite E0.
    rewrite andb_false_r. reflexivity.
  - rewrite final_set_count by exact E. rewrite andb_true_r.
    destruct (Z.leb_spec b0 t) as [H|H].
    + unfold b. rewrite boundaries_upto_cons.
      pose proof (boundaries_upto_nonneg t (b1 :: rest)).
      mask_cases;
        destruct (Z.eqb_spec (1 + boundaries_upto t (b1 :: rest)) 0);
        try lia; reflexivity.
    + rewrite boundaries_upto_none
        by (apply StronglySorted_tail_above; assumption).
      reflexivity.
Qed.

End SortedBoundariesMore.

Lemma filter_map_commute (A B : Type) (f : A -> B) (p : B -> bool)
      (l : list A) :
  filter p (map f l) = map f (filter (fun a => p (f a)) l).
Proof.
  induction l as [|a l IH]; [reflexivity|].
  cbn [map filter]. destruct (p (f a)); cbn [map]; rewrite IH; reflexivity.
Qed.

(** With the explosions in ascending order, a quake whose time is not the
    last boundary gets as set number the number of boundaries at or before
    its time. *)
Theorem ex_set_counts_boundaries (explode : list Z) (quakes : list quake)
        (b0 b1 : Z) (rest : list Z) :
  skipn 12 explode = b0 :: b1 :: rest ->
  StronglySorted Z.le (b0 :: b1 :: rest) ->
  exists events,
    group_earthquakes explode quakes = Ok events /\
    forall e, In e events ->
      DTtime (row e) <> last (b0 :: b1 :: rest) b0 ->
      ex_set e = boundaries_upto (DTtime (row e)) (b0 :: b1 :: rest).
Proof.
  intros Hb Hs. eexists. split; [apply group_earthquakes_final_set, Hb|].
  intros e He Ht. apply in_map_iff in He. destruct He as [q [E _]].
  subst e. cbn [row ex_set] in *.
  exact (final_set_count b0 b1 rest Hs (DTtime q) Ht).
Qed.

Lemma ex_set_counts_boundaries_witness :
  skipn 12 Samples.explode15 = [100; 200; 300]%Z /\
  StronglySorted Z.le [100; 200; 300]%Z /\
  exists events,
    group_earthquakes Samples.explode15 Samples.quakes5 = Ok events /\
    forall e, In e events -> DTtime (row e) <> 300%Z ->
      ex_set e = boundaries_upto (DTtime (row e)) [100; 200; 300]%Z.
Proof.
  assert (StronglySorted Z.le [100; 200; 300]%Z) as Hs
    by (repeat constructor; lia).
  split; [reflexivity|]. split; [exact Hs|].
  exact (ex_set_counts_boundaries Samples.explode15 Samples.quakes5
           100 200 [300%Z] eq_refl Hs).
Defined.

(** With the explosions in ascending order the set number does not decrease
    with time, as long as the later quake is not at the last boundary. *)
Theorem ex_set_monotone (explode : list Z) (quakes : list quake)
        (b0 b1 : Z) (rest : list Z) :
  skipn 12 explode = b0 :: b1 :: rest ->
  StronglySorted Z.le (b0 :: b1 :: rest) ->
  exists events,
    group_earthquakes explode quakes = Ok events /\
    forall e1 e2, In e1 events -> In e2 events ->
      (DTtime (row e1) <= DTtime (row e2))%Z ->
      DTtime (row e2) <> last (b0 :: b1 :: rest) b0 ->
      (ex_set e1 <= ex_set e2)%Z.
Proof.
  intros Hb Hs. eexists. split; [apply group_earthquakes_final_set, Hb|].
  intros e1 e2 H1 H2 Hle Ht.
  apply in_map_iff in H1. destruct H1 as [q1 [E1 _]].
  apply in_map_iff in H2. destruct H2 as [q2 [E2 _]].
  subst e1 e2. cbn [row ex_set] in *.
  rewrite (final_set_count b0 b1 rest Hs (DTtime q2) Ht).
  destruct (Z.eq_dec (DTtime q1) (last (b0 :: b1 :: rest) b0)) as [E|E].
  - rewrite E. rewrite (final_set_at_last b0 b1 rest Hs).
    apply boundaries_upto_nonneg.
  - rewrite (final_set_count b0 b1 rest Hs (DTtime q1) E).
    apply boundaries_upto_mono, Hle.
Qed.

Lemma ex_set_monotone_witness :
  skipn 12 Samples.explode15 = [100; 200; 300]%Z /\
  StronglySorted Z.le [100; 200; 300]%Z /\
  exists events,
    group_earthquakes Samples.explode15 Samples.quakes5 = Ok events /\
    forall e1 e2, In e1 events -> In e2 events ->
      (DTtime (row e1) <= DTtime (row e2))%Z ->
      DTtime (row e2) <> 300%Z ->
      (ex_set e1 <= ex_set e2)%Z.
Proof.
  assert (StronglySorted Z.le [100; 200; 300]%Z) as Hs
    by (repeat constructor; lia).
  split; [reflexivity|]. split; [exact Hs|].
  exact (ex_set_monotone Samples.explode15 Samples.quakes5
           100 200 [300%Z] eq_refl Hs).
Defined.

(** With the explosions in ascending order the events kept for the charts
    are the quakes from the first boundary on, but for those at the time of
    the last boundary. *)
Theorem plotted_events_times (explode : list Z) (quakes : list quake)
        (b0 b1 : Z) (rest : list Z) :
  skipn 12 explode = b0 :: b1 :: rest ->
  StronglySorted Z.le (b0 :: b1 :: rest) ->
  exists events,
    group_earthquakes explode quakes = Ok events /\
    map row (Display.plotted_events events)
    = filter (fun q => (b0 <=? DTtime q)%Z
                       && negb (DTtime q =? last (b0 :: b1 :: rest) b0)%Z)
             quakes.
Proof.
  intros Hb Hs. eexists. split; [apply group_earthquakes_final_set, Hb|].
  unfold Display.plotted_events. rewrite filter_map_commute, map_map.
  cbn [row ex_set]. rewrite map_id. apply filter_ext. intros q.
  exact (final_set_zero b0 b1 rest Hs (DTtime q)).
Qed.

Lemma plotted_events_times_witness :
  skipn 12 Samples.explode15 = [100; 200; 300]%Z /\
  StronglySorted Z.le [100; 200; 300]%Z /\
  exists events,
    group_earthquakes Samples.explode15 Samples.quakes5 = Ok events /\
    map (fun e => DTtime (row e)) (Display.plotted_events events)
    = [150; 250; 350]%Z.
Proof.
  assert (StronglySorted Z.le [100; 200; 300]%Z) as Hs
    by (repeat constructor; lia).
  split; [reflexivity|]. split; [exact Hs|].
  destruct (plotted_events_times Samples.explode15 Samples.quakes5
              100 200 [300%Z] eq_refl Hs) as [events [Hok Hrows]].
  exists events. split; [exact Hok|].
  rewrite <- (map_map row DTtime), Hrows. reflexivity.
Defined.

End PartitionMore.


(** ** More on the b-value statistics *)

Module StatsMore.

Import Stats StatsFacts.

Local Open Scope R_scope.

Lemma sqrt_ge_1 (x : R) : 1 <= x -> 1 <= sqrt x.
Proof.
  intros Hx. rewrite <- sqrt_1 at 1. apply sqrt_le_1; lra.
Qed.

(** For a nonempty list of magnitudes at or above the completeness
    magnitude the error is positive and at most the b-value, and equal to it
    for a single event. *)
Theorem getB_err_at_most_getB (mags : list Q) (magC : Q) :
  mags <> [] ->
  Forall (fun m => (magC <= m)%Q) mags ->
  exists b e : R,
    getB (init mags magC) = Fin b /\
    getB_err (init mags magC) = Fin e /\
    0 < e <= b /\
    (length mags = 1%nat -> e = b).
Proof.
  intros Hq Hc.
  pose proof (getB_divisor_bound mags magC Hq Hc) as Hd.
  pose proof log10_e_pos as HL.
  assert (1 <= INR (length mags)) as HN.
  { destruct mags as [|m mags]; [contradiction|].
    change 1 with (INR 1). apply le_INR. cbn. lia. }
  pose proof (sqrt_ge_1 _ HN) as Hs.
  do 2 eexists.
  split; [exact (getB_value mags magC Hq Hc)|].
  split; [exact (getB_err_value mags magC Hq Hc)|].
  set (b := log10 math_e
            / (Q2R (Qsum mags) / INR (length mags) - (Q2R magC - 0.05))).
  assert (0 < b) as Hb by (apply Rdiv_lt_0_compat; lra).
  split; [split|].
  - apply Rdiv_lt_0_compat; lra.
  - apply Rle_trans with (b / 1); [|lra].
    unfold Rdiv. apply Rmult_le_compat_l; [lra|].
    apply Rinv_le_contravar; lra.
  - intros E. rewrite E. cbn [INR]. rewrite sqrt_1. lra.
Qed.

Lemma getB_err_at_most_getB_witness :
  [20 # 10; 22 # 10]%Q <> [] /\
  Forall (fun m => (18 # 10 <= m)%Q) [20 # 10; 22 # 10]%Q /\
  exists b e : R,
    getB (init [20 # 10; 22 # 10]%Q (18 # 10)) = Fin b /\
    getB_err (init [20 # 10; 22 # 10]%Q (18 # 10)) = Fin e /\
    0 < e <= b.
Proof.
  assert ([20 # 10; 22 # 10]%Q <> []) as H1 by discriminate.
  assert (Forall (fun m => (18 # 10 <= m)%Q) [20 # 10; 22 # 10]%Q) as H2
    by (repeat constructor; apply Qle_bool_imp_le; reflexivity).
  split; [exact H1|]. split; [exact H2|].
  destruct (getB_err_at_most_getB [20 # 10; 22 # 10]%Q (18 # 10) H1 H2)
    as [b [e [Hb [He [Hle _]]]]].
  exists b, e. repeat split; try assumption; apply Hle.
Defined.

Lemma filter_filter (A : Type) (p q : A -> bool) (l : list A) :
  filter p (filter q l) = filter (fun x => q x && p x) l.
Proof.
  induction l as [|x l IH]; [reflexivity|].
  cbn [filter]. destruct (q x); cbn [filter andb]; rewrite IH; reflexivity.
Qed.

Lemma length_filter_le (A : Type) (p : A -> bool) (l : list A) :
  (length (filter p l) <= length l)%nat.
Proof.
  induction l as [|x l IH]; [reflexivity|].
  cbn [filter]. destruct (p x); cbn [length]; lia.
Qed.

(** The events that qualify at a larger completeness magnitude are those
    that qualify at a smaller one and reach the larger: their number does not
    grow with the completeness magnitude. *)
Theorem events_list_nested (es : list stats_row) (c1 c2 : Q) (setnum : Z) :
  (c1 <= c2)%Q ->
  events_list es c2 setnum
  = filter (fun m => Qle_bool c2 m) (events_list es c1 setnum) /\
  (length (events_list es c2 setnum) <= length (events_list es c1 setnum))%nat.
Proof.
  intros Hc.
  assert (events_list es c2 setnum
          = filter (fun m => Qle_bool c2 m) (events_list es c1 setnum)) as E.
  { unfold events_list. rewrite filter_map_swap, filter_filter.
    f_equal. apply filter_ext. intros [m s]. cbn [fst snd].
    destruct (Qle_bool c2 m) eqn:E2.
    - assert (Qle_bool c1 m = true) as E1.
      { apply Qle_bool_iff. apply Qle_bool_iff in E2.
        eapply Qle_trans; eassumption. }
      rewrite E1. cbn. rewrite andb_true_r. reflexivity.
    - rewrite andb_false_r. reflexivity. }
  split; [exact E|]. rewrite E. apply length_filter_le.
Qed.

Lemma events_list_nested_witness :
  (18 # 10 <= 21 # 10)%Q /\
  events_list Samples.stats3 (21 # 10) 1
  = filter (fun m => Qle_bool (21 # 10) m)
           (events_list Samples.stats3 (18 # 10) 1) /\
  (length (events_list Samples.stats3 (21 # 10) 1)
   <= length (events_list Samples.stats3 (18 # 10) 1))%nat.
Proof.
  assert (18 # 10 <= 21 # 10)%Q as H by (apply Qle_bool_imp_le; reflexivity).
  split; [exact H|].
  exact (events_list_nested Samples.stats3 (18 # 10) (21 # 10) 1 H).
Defined.

(** *** The fifty labels *)

Lemma Ok_injective (A : Type) (a b : A) : Ok a = Ok b -> a = b.
Proof. intros H. injection H as E. exact E. Qed.

Lemma NoDup_unique (l : list Z) : NoDup (unique l).
Proof.
  induction l as [|x l IH]; [constructor|].
  cbn [unique]. constructor.
  - intros H. apply filter_In in H. destruct H as [_ H].
    rewrite Z.eqb_refl in H. discriminate.
  - apply NoDup_filter, IH.
Qed.

Lemma in_sets_of_events_stats (events : list event) (s : Z) :
  In s (map snd (events_stats events)) <->
  s <> 0%Z /\ In s (map ex_set events).
Proof.
  rewrite !in_map_iff. split.
  - intros [r [E Hr]]. apply events_stats_spec in Hr.
    destruct Hr as [e [He [Er Hn]]]. subst r. cbn in E. subst s.
    split; [exact Hn|]. exists e. auto.
  - intros [Hn [e [E He]]]. exists (mag (row e), ex_set e).
    split; [exact E|]. apply events_stats_spec. exists e.
    repeat split; auto. congruence.
Qed.

Lemma length_sets (events : list event) (sets : list Z) :
  NoDup sets ->
  (forall s, In s sets <-> s <> 0%Z /\ In s (map ex_set events)) ->
  length (unique (map snd (events_stats events))) = length sets.
Proof.
  intros Hnd Hsets. apply Nat.le_antisymm.
  - apply NoDup_incl_length; [apply NoDup_unique|].
    intros s Hs. apply Hsets, in_sets_of_events_stats, in_unique, Hs.
  - apply NoDup_incl_length; [exact Hnd|].
    intros s Hs. apply in_unique, in_sets_of_events_stats, Hsets, Hs.
Qed.

Lemma unique_nil (l : list Z) : unique l = [] -> l = [].
Proof. destruct l; [reflexivity | discriminate]. Qed.

(** The assignment of the labels to a frame of cell 8, by the number of
    distinct set numbers. *)
Lemma with_ex_set_fill (f : SetStats -> np_float R) (es : list stats_row) :
  with_ex_set (fill f es) =
  match unique (map snd es) with
  | [] => Ok empty_frame_with_ex_set
  | _ :: _ =>
      if (length (unique (map snd es)) =? 50)%nat then
        Ok (combine (map Z.of_nat (seq 1 50)) (fill f es))
      else Raise ValueError
  end.
Proof.
  unfold with_ex_set. rewrite length_fill. unfold fill.
  destruct (unique (map snd es)); reflexivity.
Qed.

(** Cell 8 ends without an exception exactly when the events have fifty
    distinct set numbers other than 0, or none at all (the frames then have
    no row and take the fifty labels as rows); with any other number the
    assignment of [range(1,51)] raises [ValueError]. *)
Theorem b_values_fifty_sets_or_none (events : list event) (sets : list Z) :
  NoDup sets ->
  (forall s, In s sets <-> s <> 0%Z /\ In s (map ex_set events)) ->
  ((exists bv be, b_values events = Ok (bv, be)) <->
   length sets = 50%nat \/ sets = []) /\
  (length sets <> 50%nat -> sets <> [] ->
   b_values events = Raise ValueError).
Proof.
  intros Hnd Hsets. pose proof (length_sets events sets Hnd Hsets) as L.
  unfold b_values, bvals_df, berrs_df. rewrite !with_ex_set_fill.
  destruct (unique (map snd (events_stats events))) as [|u U] eqn:EU.
  - cbn [bind]. assert (sets = []) as E
      by (destruct sets; [reflexivity | discriminate]).
    split; [|contradiction]. split; [auto|]. intros _. eauto.
  - assert (sets <> []) as Hne by (intros E; subst sets; discriminate).
    rewrite L.
    destruct (Nat.eqb_spec (length sets) 50) as [E|E]; cbn [bind].
    + split; [|contradiction]. split; [auto|]. intros _. eauto.
    + split; [|reflexivity]. split.
      * intros [bv [be H]]. discriminate.
      * intros [H|H]; contradiction.
Qed.

Lemma b_values_fifty_sets_or_none_witness :
  NoDup [1%Z; 2%Z] /\
  (forall s, In s [1%Z; 2%Z] <->
             s <> 0%Z /\ In s (map ex_set Samples.events4)) /\
  b_values Samples.events4 = Raise ValueError.
Proof.
  assert (NoDup [1%Z; 2%Z]) as H1.
  { repeat constructor; cbn; intuition discriminate. }
  assert (forall s, In s [1%Z; 2%Z] <->
                    s <> 0%Z /\ In s (map ex_set Samples.events4)) as H2.
  { intros s. cbn. intuition (subst; try discriminate; auto). }
  split; [exact H1|]. split; [exact H2|].
  apply (proj2 (b_values_fifty_sets_or_none Samples.events4 [1%Z; 2%Z] H1 H2));
    cbn; discriminate.
Defined.

Lemma combine_zip_with (A B : Type) (l1 : list A) (l2 : list B) :
  combine l1 l2 = zip_with pair l1 l2.
Proof.
  revert l2. induction l1 as [|a l1 IH]; intros [|b l2]; cbn; auto.
  f_equal. apply IH.
Qed.

Lemma in_combine_nth (A B : Type) (l1 : list A) (l2 : list B) (a : A) (b : B)
      (da : A) (db : B) :
  In (a, b) (combine l1 l2) <->
  exists i, (i < length l1)%nat /\ (i < length l2)%nat /\
            a = nth i l1 da /\ b = nth i l2 db.
Proof.
  rewrite combine_zip_with, (in_zip_with _ _ _ pair l1 l2 (a, b) da db).
  split; intros [i [H1 [H2 E]]]; exists i; repeat split; auto;
    [inversion E; auto | inversion E; auto | destruct E; subst; auto].
Qed.

(** The labels [1..50] are given to the rows by position. When cell 8
    succeeds, every row carries its own index (its set number) as label
    exactly when the set numbers other than 0 first appear in the order
    1, 2, ..., 50; a frame built from no set has the index [0..49] and no
    label agrees. *)
Theorem labels_are_set_numbers (events : list event)
        (bv be : list (Z * (Z * list (Q * np_float R)))) :
  b_values events = Ok (bv, be) ->
  ((forall label setnum cells,
      In (label, (setnum, cells)) bv -> label = setnum) <->
   unique (map snd (events_stats events)) = map Z.of_nat (seq 1 50)).
Proof.
  unfold b_values, bvals_df, berrs_df. rewrite !with_ex_set_fill.
  set (U := unique (map snd (events_stats events))).
  destruct U as [|u U'] eqn:EU.
  - cbn [bind]. intros H. apply Ok_injective in H.
    apply (f_equal fst) in H. cbn [fst] in H. subst bv.
    split; [|discriminate]. intros Hall. exfalso.
    specialize (Hall 1%Z 0%Z (map (fun magc => (magc, NaN)) mag_min)).
    assert (1 = 0)%Z; [|discriminate]. apply Hall. left. reflexivity.
  - rewrite <- EU.
    destruct (Nat.eqb_spec (length U) 50) as [L|L]; cbn [bind];
      [|discriminate].
    intros H. apply Ok_injective in H.
    apply (f_equal fst) in H. cbn [fst] in H. subst bv.
    set (labels := map Z.of_nat (seq 1 50)).
    assert (length labels = 50%nat) as Ll
      by (unfold labels; rewrite length_map, length_seq; reflexivity).
    set (h := fun setnum : Z =>
                (setnum,
                 map (fun magc =>
                        (magc,
                         getB (statsobj (events_stats events) setnum magc)))
                     mag_min)).
    assert (fill getB (events_stats events) = map h U) as Ef by reflexivity.
    rewrite Ef. split.
    + intros Hall. apply nth_ext with (d := 0%Z) (d' := 0%Z); [lia|].
      intros i Hi. symmetry.
      apply (Hall (nth i labels 0%Z) (nth i U 0%Z) (snd (h (nth i U 0%Z)))).
      apply (in_combine_nth _ _ labels (map h U) _ _ 0%Z (h 0%Z)).
      exists i. rewrite length_map. repeat split; try lia.
      rewrite map_nth. reflexivity.
    + intros E label setnum cells Hin.
      apply (in_combine_nth _ _ labels (map h U) _ _ 0%Z (h 0%Z)) in Hin.
      destruct Hin as [i [_ [_ [E1 E2]]]]. rewrite map_nth in E2.
      unfold h in E2. inversion E2; subst. rewrite E. reflexivity.
Qed.

Lemma labels_are_set_numbers_witness :
  exists bv be,
    b_values Samples.events50 = Ok (bv, be) /\
    forall label setnum cells,
      In (label, (setnum, cells)) bv -> label = setnum.
Proof.
  assert (exists bv be, b_values Samples.events50 = Ok (bv, be)) as H.
  { unfold b_values.
    rewrite !with_ex_set_fifty
      by (unfold bvals_df, berrs_df; rewrite length_fill, events50_sets;
          reflexivity).
    cbn [bind]. eauto. }
  destruct H as [bv [be H]]. exists bv, be. split; [exact H|].
  apply (proj2 (labels_are_set_numbers Samples.events50 bv be H)).
  apply events50_sets.
Defined.

End StatsMore.


(** ** More on the frequency-magnitude tables *)

Module FreqMagMore.

Import FreqMag FreqMagFacts.

(** *** Rounding to a tenth *)

Lemma rint_close (x : Q) :
  - (1 # 2) <= inject_Z (rint x) - x /\ inject_Z (rint x) - x <= 1 # 2.
Proof.
  pose proof (Qfloor_le x) as Hl. pose proof (Qlt_floor x) as Hu.
  rewrite inject_Z_plus in Hu. change (inject_Z 1) with 1 in Hu.
  unfold rint.
  destruct (Qcompare_spec (x - inject_Z (Qfloor x)) (1 # 2)) as [E|L|G].
  - destruct (Z.even (Qfloor x)).
    + split; Lqa.lra.
    + rewrite inject_Z_plus. change (inject_Z 1) with 1. split; Lqa.lra.
  - split; Lqa.lra.
  - rewrite inject_Z_plus. change (inject_Z 1) with 1. split; Lqa.lra.
Qed.

Lemma rint_comp (x y : Q) : x == y -> rint x = rint y.
Proof.
  intros E. unfold rint. rewrite (Qfloor_comp _ _ E).
  assert (x - inject_Z (Qfloor y) == y - inject_Z (Qfloor y)) as E'
    by (rewrite E; reflexivity).
  rewrite (Qcompare_comp _ _ E' (1 # 2) (1 # 2) (Qeq_refl _)). reflexivity.
Qed.

Lemma rint_integer (n : Z) : rint (inject_Z n) = n.
Proof.
  unfold rint. rewrite Qfloor_Z.
  destruct (Qcompare_spec (inject_Z n - inject_Z n) (1 # 2)) as [E|L|G];
    [exfalso; Lqa.lra | reflexivity | exfalso; Lqa.lra].
Qed.

Lemma rint_mono (x y : Q) : x <= y -> (rint x <= rint y)%Z.
Proof.
  intros Hxy. pose proof (Qfloor_resp_le _ _ Hxy) as Hf.
  pose proof (Qfloor_le x) as Hlx. pose proof (Qlt_floor x) as Hux.
  pose proof (Qfloor_le y) as Hly. pose proof (Qlt_floor y) as Huy.
  rewrite inject_Z_plus in Hux, Huy. change (inject_Z 1) with 1 in Hux, Huy.
  assert (Qfloor x <= rint x <= Qfloor x + 1)%Z as Bx.
  { unfold rint. destruct (_ ?= _); [destruct (Z.even _)| |]; lia. }
  assert (Qfloor y <= rint y <= Qfloor y + 1)%Z as By.
  { unfold rint. destruct (_ ?= _); [destruct (Z.even _)| |]; lia. }
  destruct (Z.eq_dec (Qfloor x) (Qfloor y)) as [E|E]; [|lia].
  unfold rint. rewrite E in *.
  destruct (Qcompare_spec (x - inject_Z (Qfloor y)) (1 # 2)) as [E1|L1|G1];
    destruct (Qcompare_spec (y - inject_Z (Qfloor y)) (1 # 2)) as [E2|L2|G2];
    try destruct (Z.even (Qfloor y)); try lia; exfalso; Lqa.lra.
Qed.

(** Rounding moves a magnitude by at most 0.05, to a multiple of 0.1; it
    leaves a rounded magnitude where it is, and it keeps the order of the
    magnitudes. *)
Theorem round1_properties (x y : Q) :
  (- (1 # 20) <= round1 x - x /\ round1 x - x <= 1 # 20) /\
  (exists n : Z, round1 x = inject_Z n / 10) /\
  round1 (round1 x) == round1 x /\
  (x <= y -> round1 x <= round1 y).
Proof.
  split; [|split; [|split]].
  - destruct (rint_close (x * 10)) as [H1 H2]. unfold round1, Qdiv.
    change (/ 10) with (1 # 10). split; Lqa.lra.
  - exists (rint (x * 10)). reflexivity.
  - unfold round1 at 1 3.
    assert (round1 x * 10 == inject_Z (rint (x * 10))) as E
      by (unfold round1; field).
    rewrite (rint_comp _ _ E), rint_integer. reflexivity.
  - intros Hxy. unfold round1, Qdiv. change (/ 10) with (1 # 10).
    assert (x * 10 <= y * 10) as H by Lqa.lra.
    apply rint_mono in H. rewrite Zle_Qle in H. Lqa.lra.
Qed.

(** *** The shape of the pivot table *)

Lemma columns_sorted (events : list event) :
  StronglySorted Z.lt (columns (quake_sum events)).
Proof.
  rewrite columns_quake_sum.
  apply sorted_unique_sorted with (eqA := eq).
  - apply Z.compare_spec.
  - intros x y z. apply Z.lt_trans.
Qed.

Lemma in_bins (events : list event) (m : Q) :
  In m (bins events) -> exists e, In e events /\ m = round1 (mag (row e)).
Proof.
  intros H. unfold bins in H. apply in_sorted_unique in H.
  unfold events_mags in H. rewrite map_map in H. cbn [mr_mag] in H.
  apply in_map_iff in H. destruct H as [e [E He]]. exists e. auto.
Qed.

(** The index of the pivot table holds the rounded magnitudes that occur,
    each once and in ascending order; its columns are the set numbers that
    occur, each once and in ascending order; every row has one count per
    column, and no count is negative. *)
Theorem pivot_table_shape (events : list event) :
  StronglySorted Qlt (map fst (rows (quake_sum events))) /\
  StronglySorted Z.lt (columns (quake_sum events)) /\
  (forall e, In e events ->
     (exists m, In m (map fst (rows (quake_sum events)))
                /\ round1 (mag (row e)) == m) /\
     In (ex_set e) (columns (quake_sum events))) /\
  (forall m, In m (map fst (rows (quake_sum events))) ->
     exists e, In e events /\ m = round1 (mag (row e))) /\
  (forall s, In s (columns (quake_sum events)) ->
     exists e, In e events /\ ex_set e = s) /\
  (forall r, In r (rows (quake_sum events)) ->
     length (snd r) = length (columns (quake_sum events)) /\
     Forall (fun x => (0 <= x)%Z) (snd r)).
Proof.
  rewrite index_quake_sum.
  split; [apply bins_sorted|]. split; [apply columns_sorted|].
  split; [|split; [|split]].
  - intros e He. split; [apply bins_cover, He|].
    apply in_columns, in_map_iff. exists e. auto.
  - apply in_bins.
  - intros s Hs. apply in_columns, in_map_iff in Hs.
    destruct Hs as [e [E He]]. exists e. auto.
  - intros r Hr. split; [apply (quake_sum_row events r Hr)|].
    rewrite rows_quake_sum in Hr. apply in_map_iff in Hr.
    destruct Hr as [m [E _]]. subst r. cbn [snd].
    apply Forall_forall. intros x Hx. apply in_map_iff in Hx.
    destruct Hx as [s [E _]]. subst x. apply bin_count_nonneg.
Qed.

(** *** The counts add up *)

Lemma one_column (k : Z) (idx : list Z) :
  StronglySorted Z.lt idx -> In k idx ->
  sum (map (fun s => if (k =? s)%Z then 1%Z else 0%Z) idx) = 1%Z.
Proof.
  induction 1 as [|x l Hs IH Hall]; intros Hk; [contradiction|].
  cbn [map]. rewrite sum_cons. rewrite Forall_forall in Hall.
  destruct (Z.eqb_spec k x) as [E|E].
  - subst k. rewrite map_ext_in with (g := fun _ => 0%Z).
    + rewrite sum_map_zero. reflexivity.
    + intros y Hy. specialize (Hall y Hy).
      destruct (Z.eqb_spec x y); [lia|reflexivity].
  - destruct Hk as [Hk|Hk]; [congruence|]. rewrite IH by exact Hk.
    reflexivity.
Qed.

Lemma set_counts_total (events : list event) :
  sum (map (set_count events) (columns (quake_sum events)))
  = Z.of_nat (length events).
Proof.
  pose proof (columns_sorted events) as Hs.
  assert (forall e, In e events -> In (ex_set e) (columns (quake_sum events)))
    as Hcov.
  { intros e He. apply in_columns, in_map_iff. exists e. auto. }
  revert Hs Hcov. generalize (columns (quake_sum events)) as cols.
  intros cols Hs. unfold set_count.
  induction events as [|e events IH]; intros Hcov.
  - apply sum_map_zero.
  - rewrite map_ext with
      (g := fun s => ((if (ex_set e =? s)%Z then 1 else 0)
                      + Z.of_nat (length (filter (fun e0 => (ex_set e0 =? s)%Z)
                                                 events)))%Z).
    + rewrite sum_map_add, IH by (intros e' He'; apply Hcov; now right).
      rewrite one_column by (auto; apply Hcov; now left).
      cbn [length]. lia.
    + intros s. cbn [filter]. destruct (ex_set e =? s)%Z; cbn [length]; lia.
Qed.

Lemma map_nth_seq (A : Type) (l : list A) (d : A) :
  map (fun j => nth j l d) (seq 0 (length l)) = l.
Proof.
  induction l as [|x l IH]; [reflexivity|].
  cbn [length seq map nth]. f_equal.
  rewrite <- seq_shift, map_map. exact IH.
Qed.

(** The counts of a column of the pivot table add up to the number of
    events of its set, and the counts of the whole table to the number of
    events. *)
Theorem pivot_table_conserves_events (events : list event) (j : nat) :
  (j < length (columns (quake_sum events)))%nat ->
  sum (col j (rows (quake_sum events)))
  = set_count events (nth j (columns (quake_sum events)) 0%Z) /\
  sum (map (fun j' => sum (col j' (rows (quake_sum events))))
           (seq 0 (length (columns (quake_sum events)))))
  = Z.of_nat (length events).
Proof.
  intros Hj. split.
  - rewrite col_quake_sum by exact Hj. apply bin_counts_total.
  - rewrite <- set_counts_total.
    transitivity
      (sum (map (set_count events)
                (map (fun j' => nth j' (columns (quake_sum events)) 0%Z)
                     (seq 0 (length (columns (quake_sum events)))))));
      [|rewrite map_nth_seq; reflexivity].
    rewrite map_map. f_equal. apply map_ext_in. intros j' Hj'.
    apply in_seq in Hj'. rewrite col_quake_sum by lia.
    apply bin_counts_total.
Qed.

Lemma pivot_table_conserves_events_witness :
  (1 < length (columns (quake_sum Samples.events4)))%nat /\
  sum (col 1 (rows (quake_sum Samples.events4))) = 2%Z /\
  sum (map (fun j' => sum (col j' (rows (quake_sum Samples.events4))))
           (seq 0 (length (columns (quake_sum Samples.events4)))))
  = 4%Z.
Proof.
  assert (1 < length (columns (quake_sum Samples.events4)))%nat as H
    by (vm_compute; lia).
  split; [exact H|].
  exact (pivot_table_conserves_events Samples.events4 1 H).
Defined.

(** *** The shape of [events_sum] *)

Lemma flat_map_nth_seq (A B : Type) (g : A -> list B) (l : list A) (d : A) :
  flat_map (fun j => g (nth j l d)) (seq 0 (length l)) = flat_map g l.
Proof.
  transitivity (flat_map g (map (fun j => nth j l d) (seq 0 (length l)))).
  - rewrite !flat_map_concat_map, map_map. reflexivity.
  - rewrite map_nth_seq. reflexivity.
Qed.

Lemma map_zip_with_left (A B C D : Type) (f : A -> B -> C) (k : C -> D)
      (h : A -> D) (l1 : list A) (l2 : list B) :
  length l1 = length l2 ->
  (forall a b, k (f a b) = h a) ->
  map k (zip_with f l1 l2) = map h l1.
Proof.
  intros L H. revert l2 L.
  induction l1 as [|a l1 IH]; intros [|b l2] L; cbn in *; try discriminate;
    auto.
  rewrite H. f_equal. apply IH. lia.
Qed.

(** [events_sum] is always built: the two long tables have the same length.
    It has one row for every set and every bin, set after set and, within a
    set, bin after bin in ascending order. *)
Theorem events_sum_shape (events : list event) :
  exists table,
    events_sum events = Ok table /\
    length table
    = (length (columns (quake_sum events)) * length (bins events))%nat /\
    map (fun r => (fm_ex_set r, fm_mag r)) table
    = list_prod (columns (quake_sum events)) (bins events).
Proof.
  eexists. split; [apply events_sum_ok|].
  assert (length (rows (quake_sum_div events))
          = length (rows (quake_cumsum_norm events))) as Hlen.
  { unfold quake_sum_div, quake_cumsum_norm, div_axis1. cbn [rows].
    rewrite !length_map, length_rows_quake_sum, length_rows_quake_cumsum.
    reflexivity. }
  assert (map fst (rows (quake_sum_div events)) = bins events) as Hidx.
  { unfold quake_sum_div, div_axis1. cbn [rows]. rewrite map_map.
    cbn [fst]. apply index_quake_sum. }
  assert (forall j,
    map (fun r => (fm_ex_set r, fm_mag r))
        (zip_with
           (fun r1 r2 =>
              mkFmRow (nth j (columns (quake_sum events)) 0%Z) (fst r1)
                      (nth j (snd r1) NaN) (nth j (snd r2) NaN))
           (rows (quake_sum_div events)) (rows (quake_cumsum_norm events)))
    = map (pair (nth j (columns (quake_sum events)) 0%Z)) (bins events))
    as Hblock.
  { intros j. rewrite <- Hidx, map_map.
    apply map_zip_with_left; [exact Hlen|]. reflexivity. }
  split.
  - rewrite length_flat_map_uniform with (n := length (bins events)).
    + rewrite length_seq. reflexivity.
    + intros j _. rewrite <- (length_map (fun r => (fm_ex_set r, fm_mag r))),
        Hblock.
      apply length_map.
  - rewrite flat_map_concat_map, concat_map, map_map.
    rewrite (map_ext _ _ Hblock), <- flat_map_concat_map.
    rewrite (flat_map_nth_seq _ _ (fun s => map (pair s) (bins events))).
    clear. induction (columns (quake_sum events)) as [|s cols IH];
      [reflexivity|].
    cbn [flat_map list_prod]. rewrite IH. reflexivity.
Qed.

(** Every normalized cumulative count of [events_sum] is a number from 0
    to 1: no [nan] and no [inf] enters the table. *)
Theorem cs_counts_in_unit_interval (events : list event) (table : list fm_row)
        (r : fm_row) :
  events_sum events = Ok table ->
  In r table ->
  exists q, cs_counts r = Fin q /\ 0 <= q /\ q <= 1.
Proof.
  rewrite events_sum_ok. intros E Hr. inversion E; subst table. clear E.
  apply events_sum_rows in Hr. destruct Hr as [j [i [Hj [Hi Er]]]].
  subst r. cbn [cell_row cs_counts].
  set (s := nth j (columns (quake_sum events)) 0%Z).
  assert (In s (map ex_set events)) as Hs by (apply in_columns, nth_In, Hj).
  pose proof (set_count_pos events s Hs) as Hpos.
  assert (bins events <> []) as Hb
    by (destruct (bins events); [cbn in Hi; lia | discriminate]).
  pose proof (reverse_cumulative_mono events _ _ s
                (first_bin_least events i Hi)) as Hm.
  rewrite (reverse_cumulative_first events s Hb) in Hm.
  eexists. split; [apply true_div_pos; lia|].
  apply ratio_in_unit_interval; lia.
Qed.

Lemma cs_counts_in_unit_interval_witness :
  exists table r,
    events_sum Samples.events4 = Ok table /\
    In r table /\
    exists q, cs_counts r = Fin q /\ 0 <= q /\ q <= 1.
Proof.
  assert (exists table r,
            events_sum Samples.events4 = Ok table /\ In r table) as H.
  { eexists. eexists. split; [vm_compute; reflexivity|]. left. reflexivity. }
  destruct H as [table [r [Hok Hr]]]. exists table, r.
  split; [exact Hok|]. split; [exact Hr|].
  exact (cs_counts_in_unit_interval Samples.events4 table r Hok Hr).
Defined.

End FreqMagMore.


(** ** The long form of the b-values *)

Module DisplayFacts.

Import Stats StatsFacts StatsMore Display.

Local Open Scope R_scope.

Lemma rint_R_close (x : R) :
  - (1 / 2) <= IZR (rint_R x) - x <= 1 / 2.
Proof.
  destruct (archimed x) as [H1 H2]. unfold rint_R. cbv zeta.
  destruct (Rlt_dec (x - IZR (up x - 1)) (1 / 2)) as [L|L].
  - rewrite minus_IZR in *. lra.
  - destruct (Rlt_dec (1 / 2) (x - IZR (up x - 1))) as [G|G].
    + rewrite plus_IZR, minus_IZR in *. lra.
    + destruct (Z.even (up x - 1)).
      * rewrite minus_IZR in *. lra.
      * rewrite plus_IZR, minus_IZR in *. lra.
Qed.

(** Rounding to 0.01 moves a number by at most 0.005 and keeps [nan]. *)
Lemma round2_close (r : R) :
  exists v, round2 (Fin r) = Fin v /\ - (1 / 200) <= v - r <= 1 / 200.
Proof.
  eexists. split; [reflexivity|].
  pose proof (rint_R_close (r * 100)). lra.
Qed.

Lemma nth_labels (k : nat) :
  (k < 50)%nat -> nth k (map Z.of_nat (seq 1 50)) 0%Z = Z.of_nat (S k).
Proof.
  intros Hk. change 0%Z with (Z.of_nat 0). rewrite map_nth, seq_nth by exact Hk.
  reflexivity.
Qed.

Lemma nth_cells (f : SetStats -> np_float R) (es : list stats_row) (s : Z)
      (j : nat) :
  (j < length mag_min)%nat ->
  nth j (map (fun magc => (magc, f (statsobj es s magc))) mag_min) (0%Q, NaN)
  = (nth j mag_min 0%Q, f (statsobj es s (nth j mag_min 0%Q))).
Proof.
  intros Hj.
  rewrite nth_indep with (d' := (0%Q, f (statsobj es s 0%Q)))
    by (rewrite length_map; exact Hj).
  apply (map_nth (fun magc => (magc, f (statsobj es s magc)))).
Qed.

Lemma combine_map_same (A B C : Type) (f : A -> B) (g : A -> C) (l : list A) :
  combine (map f l) (map g l) = map (fun x => (f x, g x)) l.
Proof.
  induction l as [|x l IH]; [reflexivity|]. cbn. rewrite IH. reflexivity.
Qed.

Lemma zip_with_map_same (A B C D : Type) (F : B -> C -> D) (f : A -> B)
      (g : A -> C) (l : list A) :
  zip_with F (map f l) (map g l) = map (fun x => F (f x) (g x)) l.
Proof.
  induction l as [|x l IH]; [reflexivity|]. cbn. rewrite IH. reflexivity.
Qed.

(** The frame with its labels, position by position. *)
Lemma labelled_rows (A : Type) (h : Z -> A) (U : list Z) :
  length U = 50%nat ->
  combine (map Z.of_nat (seq 1 50)) (map h U)
  = map (fun k => (Z.of_nat (S k), h (nth k U 0%Z))) (seq 0 50).
Proof.
  intros L. rewrite <- (FreqMagMore.map_nth_seq _ U 0%Z) at 1.
  rewrite L, <- seq_shift, !map_map. apply combine_map_same.
Qed.

Lemma melt_fill (f : SetStats -> np_float R) (es : list stats_row) :
  length (unique (map snd es)) = 50%nat ->
  melt (combine (map Z.of_nat (seq 1 50)) (fill f es))
  = flat_map
      (fun j =>
         map (fun k =>
                (Z.of_nat (S k), nth j mag_min 0%Q,
                 f (statsobj es (nth k (unique (map snd es)) 0%Z)
                             (nth j mag_min 0%Q))))
             (seq 0 50))
      (seq 0 (length mag_min)).
Proof.
  intros L. unfold melt, fill. rewrite (labelled_rows _ _ _ L).
  cbn [length mag_min seq flat_map]. rewrite !map_map. reflexivity.
Qed.

Lemma bvals_long_fifty (events : list event) :
  length (unique (map snd (events_stats events))) = 50%nat ->
  bvals_long events = Ok (long_rows (events_stats events)).
Proof.
  intros L. unfold bvals_long, b_values.
  rewrite !with_ex_set_fifty
    by (unfold bvals_df, berrs_df; rewrite length_fill; exact L).
  cbn [bind fst snd]. f_equal. unfold bvals_df, berrs_df.
  rewrite !melt_fill by exact L.
  rewrite zip_with_flat_map by (intros; rewrite !length_map; reflexivity).
  apply flat_map_ext. intros j. rewrite zip_with_map_same. reflexivity.
Qed.

(** Without any set the frames take the fifty labels as rows, all [nan]. *)
Lemma bvals_long_none (events : list event) :
  unique (map snd (events_stats events)) = [] ->
  bvals_long events = Ok (long_rows (events_stats events)).
Proof.
  intros U. unfold bvals_long, b_values, bvals_df, berrs_df.
  rewrite !with_ex_set_fill, U. cbn [bind fst snd].
  apply unique_nil, map_eq_nil in U. rewrite U. reflexivity.
Qed.

Lemma bvals_long_rows (events : list event) (rows : list long_row) :
  bvals_long events = Ok rows ->
  (length (unique (map snd (events_stats events))) = 50%nat \/
   unique (map snd (events_stats events)) = []) /\
  rows = long_rows (events_stats events).
Proof.
  intros H.
  destruct (unique (map snd (events_stats events))) as [|u U] eqn:EU.
  - split; [now right|]. rewrite (bvals_long_none events EU) in H.
    symmetry. apply Ok_injective, H.
  - destruct (Nat.eq_dec (length (u :: U)) 50) as [L|L].
    + split; [now left|]. rewrite <- EU in L.
      rewrite (bvals_long_fifty events L) in H.
      symmetry. apply Ok_injective, H.
    + exfalso. unfold bvals_long, b_values, bvals_df in H.
      rewrite with_ex_set_fill, EU in H. apply Nat.eqb_neq in L.
      rewrite L in H. discriminate.
Qed.

Lemma in_long_rows (es : list stats_row) (r : long_row) :
  In r (long_rows es) <->
  exists k j, (k < 50)%nat /\ (j < length mag_min)%nat /\
    r = mkLongRow
          (Z.of_nat (S k)) (nth j mag_min 0%Q)
          (round2 (getB (statsobj es (nth k (unique (map snd es)) 0%Z)
                                  (nth j mag_min 0%Q))))
          (round2 (getB_err (statsobj es (nth k (unique (map snd es)) 0%Z)
                                      (nth j mag_min 0%Q)))).
Proof.
  unfold long_rows. rewrite in_flat_map. split.
  - intros [j [Hj Hr]]. apply in_seq in Hj. apply in_map_iff in Hr.
    destruct Hr as [k [E Hk]]. apply in_seq in Hk.
    exists k, j. split; [lia|]. split; [lia|]. symmetry. exact E.
  - intros [k [j [Hk [Hj E]]]]. exists j. split; [apply in_seq; lia|].
    apply in_map_iff. exists k. split; [symmetry; exact E|].
    apply in_seq. lia.
Qed.

(** When it is built, from fifty sets or from none, [bvals_long] has 350
    rows: for every completeness magnitude in the order of [mag_min], the
    labels 1 to 50 in order. *)
Theorem bvals_long_shape (events : list event) (rows : list long_row) :
  bvals_long events = Ok rows ->
  length rows = 350%nat /\
  map (fun r => (lr_mag_c r, lr_ex_set r)) rows
  = list_prod mag_min (map Z.of_nat (seq 1 50)).
Proof.
  intros H. destruct (bvals_long_rows events rows H) as [_ E]. subst rows.
  unfold long_rows. split.
  - rewrite length_flat_map_uniform with (n := 50%nat); [reflexivity|].
    intros j _. rewrite length_map, length_seq. reflexivity.
  - cbn [length mag_min seq flat_map]. rewrite !map_app, !map_map.
    cbn [lr_mag_c lr_ex_set nth map list_prod app]. reflexivity.
Qed.

Lemma events50_fifty_sets :
  length (unique (map snd (events_stats Samples.events50))) = 50%nat.
Proof. rewrite events50_sets. reflexivity. Qed.

Lemma bvals_long_shape_witness :
  exists rows,
    bvals_long Samples.events50 = Ok rows /\ length rows = 350%nat.
Proof.
  exists (long_rows (events_stats Samples.events50)).
  pose proof (bvals_long_fifty Samples.events50 events50_fifty_sets) as H.
  split; [exact H|].
  exact (proj1 (bvals_long_shape Samples.events50 _ H)).
Defined.

(** The row of [bvals_long] with the label [L] and the completeness
    magnitude [c] reports on the [L]-th distinct set number other than 0, in
    the order of first appearance. Without a qualifying event both values are
    [nan], as in every row of a table built from no set at all; with N >= 1
    qualifying events they are within 0.005 of the b-value and of the b-value
    over [sqrt(N)], both read over exact numbers. *)
Theorem bvals_long_values (events : list event) (rows : list long_row)
        (r : long_row) :
  bvals_long events = Ok rows ->
  In r rows ->
  let es := events_stats events in
  let setnum := nth (Z.to_nat (lr_ex_set r) - 1) (unique (map snd es)) 0%Z in
  let qualifying := events_list es (lr_mag_c r) setnum in
  let b := log10 math_e
           / (Q2R (Qsum qualifying) / INR (length qualifying)
              - (Q2R (lr_mag_c r) - 0.05)) in
  (qualifying = [] -> lr_bvals r = NaN /\ lr_berrs r = NaN) /\
  (qualifying <> [] ->
   exists v e,
     lr_bvals r = Fin v /\ lr_berrs r = Fin e /\
     - (1 / 200) <= v - b <= 1 / 200 /\
     - (1 / 200) <= e - b / sqrt (INR (length qualifying)) <= 1 / 200).
Proof.
  intros H Hr. destruct (bvals_long_rows events rows H) as [_ E]. subst rows.
  apply in_long_rows in Hr. destruct Hr as [k [j [Hk [Hj E]]]]. subst r.
  cbn [lr_ex_set lr_mag_c lr_bvals lr_berrs].
  replace (Z.to_nat (Z.of_nat (S k)) - 1)%nat with k by lia.
  cbv zeta. unfold statsobj.
  set (c := nth j mag_min 0%Q).
  set (l := events_list (events_stats events) c
              (nth k (unique (map snd (events_stats events))) 0%Z)).
  split.
  - intros El. rewrite El. split; reflexivity.
  - intros Hl. pose proof (events_list_complete (events_stats events) c
                             (nth k (unique (map snd (events_stats events))) 0%Z))
      as Hc.
    fold l in Hc.
    rewrite (getB_value l c Hl Hc), (getB_err_value l c Hl Hc).
    destruct (round2_close
                (log10 math_e
                 / (Q2R (Qsum l) / INR (length l) - (Q2R c - 0.05))))
      as [v [Ev Hv]].
    destruct (round2_close
                (log10 math_e
                 / (Q2R (Qsum l) / INR (length l) - (Q2R c - 0.05))
                 / sqrt (INR (length l))))
      as [e [Ee He]].
    exists v, e. repeat split; auto; lra.
Qed.

Lemma events50_first_row_in :
  In Samples.events50_first_row (long_rows (events_stats Samples.events50)).
Proof.
  apply in_long_rows. exists 0%nat, 0%nat.
  split; [lia|]. split; [simpl; lia|].
  rewrite events50_sets. reflexivity.
Qed.

Lemma bvals_long_values_witness :
  bvals_long Samples.events50 = Ok (long_rows (events_stats Samples.events50))
  /\ In Samples.events50_first_row (long_rows (events_stats Samples.events50))
  /\ (let es := events_stats Samples.events50 in
      let setnum :=
        nth (Z.to_nat (lr_ex_set Samples.events50_first_row) - 1)
            (unique (map snd es)) 0%Z in
      let qualifying :=
        events_list es (lr_mag_c Samples.events50_first_row) setnum in
      let b := log10 math_e
               / (Q2R (Qsum qualifying) / INR (length qualifying)
                  - (Q2R (lr_mag_c Samples.events50_first_row) - 0.05)) in
      (qualifying = [] ->
       lr_bvals Samples.events50_first_row = NaN /\
       lr_berrs Samples.events50_first_row = NaN)
      /\
      (qualifying <> [] ->
       exists v e,
         lr_bvals Samples.events50_first_row = Fin v /\
         lr_berrs Samples.events50_first_row = Fin e /\
         - (1 / 200) <= v - b <= 1 / 200 /\
         - (1 / 200) <= e - b / sqrt (INR (length qualifying)) <= 1 / 200)).
Proof.
  pose proof (bvals_long_fifty Samples.events50 events50_fifty_sets) as H.
  split; [exact H|]. split; [exact events50_first_row_in|].
  exact (bvals_long_values Samples.events50 _ Samples.events50_first_row H
           events50_first_row_in).
Defined.

End DisplayFacts.


(** ** The statistics in float64 *)

Module Float64Facts.

Import Floats.PrimFloat.
Import Float64.


End Float64Facts.
